(** * Concept graph: normalisation, similarity scoring and ingestion

    A shallow embedding of the concept-graph core of [backend/main.py]
    ([clean_concept], [calculate_similarity], [find_existing_concepts],
    [add_concept], [get_graph], [reset_graph], [get_all_concepts]); the
    serverless handler [api/add-concept.py] carries the same four functions
    verbatim.

    Conventions.
    - A Python [str] is a list of Unicode code points ([N]).  Whitespace
      ([\s], [str.strip], [str.split]) is modelled for all of Unicode.  The
      other tables used by [re] and by [str] methods (decimal digits, word
      characters, case mappings) are modelled on the Basic Latin and Latin-1
      Supplement blocks (U+0000..U+00FF), on the three code points that the
      case mappings of these blocks reach (U+0178, U+039C, U+03BC) and on the
      bullet U+2022 that the source names; on this alphabet, which the
      normaliser does not leave, they are Python's.  Any other code point is
      treated as a caseless symbol outside every class, which Python does
      not do: statements about the normaliser say so by confining their
      inputs ([in_alphabet]).
    - Python integers that count things are [nat]; the quotient computed by
      [calculate_similarity] is kept as an exact rational ([Q]).  Python
      rounds that rational to binary64; the threshold [0.6] is read as 3/5.
    - The module-level [dict] of nodes keeps insertion order, which the
      first-match scans observe: it is an association list.  The module-level
      [set] of concepts is a [gset]. *)

From Stdlib Require Import NArith ZArith QArith Lia Lqa String Ascii DecimalString.
From stdpp Require Import base list gmap.

Close Scope Q_scope.
Local Open Scope nat_scope.

(** ** Strings and the Unicode tables *)

Abbreviation char := N (only parsing).
Abbreviation str := (list N) (only parsing).

(** Reading an ASCII literal as a list of code points. *)
Definition lit (s : string) : str :=
  List.map N_of_ascii (list_ascii_of_string s).

Definition in_range (lo hi c : N) : bool := ((lo <=? c) && (c <=? hi))%N.

(** [Py_UNICODE_ISSPACE]: what [\s] and [str.strip()] call whitespace. *)
Definition py_isspace (c : char) : bool :=
  in_range 9 13 c || in_range 28 32 c || (c =? 133)%N || (c =? 160)%N
  || (c =? 5760)%N || in_range 8192 8202 c || in_range 8232 8233 c
  || (c =? 8239)%N || (c =? 8287)%N || (c =? 12288)%N.

(** [\d]: decimal digits. *)
Definition py_isdecimal (c : char) : bool := in_range 48 57 c.

(** [\w]: alphanumerics ([str.isalnum]) and the underscore. *)
Definition py_isword (c : char) : bool :=
  in_range 48 57 c || in_range 65 90 c || (c =? 95)%N || in_range 97 122 c
  || (c =? 170)%N || in_range 178 179 c || (c =? 181)%N || in_range 185 186 c
  || in_range 188 190 c || in_range 192 214 c || in_range 216 246 c
  || in_range 248 255 c || (c =? 376)%N || (c =? 924)%N || (c =? 956)%N.

(** Simple lower-case mapping. *)
Definition py_lower (c : char) : char :=
  if in_range 65 90 c then (c + 32)%N
  else if in_range 192 222 c && negb (c =? 215)%N then (c + 32)%N
  else if (c =? 376)%N then 255%N
  else if (c =? 924)%N then 956%N
  else c.

(** Full title-case mapping, as [str.capitalize] applies it to the first
    character (sharp s becomes the two characters "Ss"). *)
Definition py_title (c : char) : str :=
  if in_range 97 122 c then [(c - 32)%N]
  else if in_range 224 254 c && negb (c =? 247)%N then [(c - 32)%N]
  else if (c =? 223)%N then [83%N; 115%N]
  else if (c =? 255)%N then [376%N]
  else if (c =? 181)%N || (c =? 956)%N then [924%N]
  else [c].

(** [s.lower()] *)
Definition lower (s : str) : str := List.map py_lower s.

(** [s.capitalize()]: first character to title case, the rest to lower case. *)
Definition capitalize (s : str) : str :=
  match s with
  | [] => []
  | c :: rest => py_title c ++ lower rest
  end.

(** [s.strip()] *)
Fixpoint lstrip (s : str) : str :=
  match s with
  | [] => []
  | c :: rest => if py_isspace c then lstrip rest else s
  end.

Definition rstrip (s : str) : str := rev (lstrip (rev s)).

Definition strip (s : str) : str := rstrip (lstrip s).

(** ** Text normaliser: [clean_concept] *)

(** The class [[\d\-\*\•\.\)]] of the first substitution. *)
Definition is_marker (c : char) : bool :=
  py_isdecimal c || (c =? 45)%N || (c =? 42)%N || (c =? 8226)%N
  || (c =? 46)%N || (c =? 41)%N.

Fixpoint skip_markers (s : str) : str :=
  match s with
  | [] => []
  | c :: rest => if is_marker c then skip_markers rest else s
  end.

(** [re.sub(r'^[\d\-\*\•\.\)]+\s*', '', s)]: the pattern is anchored at
    position 0, needs at least one marker there, and is greedy. *)
Definition sub_leading_markers (s : str) : str :=
  match s with
  | [] => []
  | c :: _ => if is_marker c then lstrip (skip_markers s) else s
  end.

(** [re.sub(r'\s+', ' ', s)]: every maximal run of whitespace becomes one
    space; [in_run] tells that the previous character was whitespace. *)
Fixpoint sub_spaces (in_run : bool) (s : str) : str :=
  match s with
  | [] => []
  | c :: rest =>
      if py_isspace c
      then (if in_run then sub_spaces true rest else 32%N :: sub_spaces true rest)
      else c :: sub_spaces false rest
  end.

(** The characters that [[^\w\sáéíóúüñ]] does not match. *)
Definition is_wanted (c : char) : bool :=
  py_isword c || py_isspace c
  || (c =? 225)%N || (c =? 233)%N || (c =? 237)%N || (c =? 243)%N
  || (c =? 250)%N || (c =? 252)%N || (c =? 241)%N.

(** [re.sub(r'[^\w\sáéíóúüñ]', '', s)] *)
Definition sub_unwanted (s : str) : str := List.filter is_wanted s.

Definition clean_concept (concept : str) : str :=
  match concept with
  | [] => []
  | _ =>
      let concept := sub_leading_markers concept in
      let concept := strip (sub_spaces false concept) in
      let concept := capitalize concept in
      let concept := sub_unwanted concept in
      strip concept
  end.

(** ** Similarity scorer: [calculate_similarity] *)

(** [matrix[i][j]] and [matrix[i][j] = v] on a list of rows.  Every index
    the source uses is within the allocated [(len(str1)+1) x (len(str2)+1)]
    table (see [fill_dims] below), so Python's [IndexError] is out of reach
    and the defaults of the total lookups are never produced. *)
Definition mget (matrix : list (list nat)) (i j : nat) : nat :=
  (matrix !!! i) !!! j.

Definition mset (matrix : list (list nat)) (i j v : nat) : list (list nat) :=
  <[i := <[j := v]> (matrix !!! i)]> matrix.

(** Body of the inner loop. *)
Definition fill_cell (str1 str2 : str) (i : nat) (matrix : list (list nat))
    (j : nat) : list (list nat) :=
  if N.eqb (str1 !!! (i - 1)) (str2 !!! (j - 1))
  then mset matrix i j (mget matrix (i - 1) (j - 1))
  else mset matrix i j
         ((mget matrix (i - 1) j + 1) `min`
          ((mget matrix i (j - 1) + 1) `min` (mget matrix (i - 1) (j - 1) + 1))).

Definition fill_row (str1 str2 : str) (matrix : list (list nat)) (i : nat)
    : list (list nat) :=
  foldl (fill_cell str1 str2 i) matrix (seq 1 (length str2)).

(** The table after the three loops. *)
Definition fill (str1 str2 : str) : list (list nat) :=
  let matrix := replicate (length str1 + 1) (replicate (length str2 + 1) 0) in
  let matrix := foldl (fun m i => mset m i 0 i) matrix (seq 0 (length str1 + 1)) in
  let matrix := foldl (fun m j => mset m 0 j j) matrix (seq 0 (length str2 + 1)) in
  foldl (fill_row str1 str2) matrix (seq 1 (length str1)).

Definition Qnat (n : nat) : Q := inject_Z (Z.of_nat n).

(** The two early returns hand back a length (a Python [int]); the last
    line is a true division.  [max_len] is at least 1 there. *)
Definition calculate_similarity (str1 str2 : str) : Q :=
  if length str1 =? 0 then Qnat (length str2)
  else if length str2 =? 0 then Qnat (length str1)
  else
    let matrix := fill str1 str2 in
    let max_len := length str1 `max` length str2 in
    (1 - Qnat (mget matrix (length str1) (length str2)) / Qnat max_len)%Q.

(** *** The classic Levenshtein distance

    Written from the words of the specification: unit-cost insertion,
    deletion and substitution.  [edit a b n] says that [n] such operations
    turn [a] into [b]; [levenshtein] is the textbook recursion. *)
Inductive edit : str -> str -> nat -> Prop :=
  | edit_nil : edit [] [] 0
  | edit_delete x a b n : edit a b n -> edit (x :: a) b (S n)
  | edit_insert y a b n : edit a b n -> edit a (y :: b) (S n)
  | edit_subst x y a b n : edit a b n -> edit (x :: a) (y :: b) (S n)
  | edit_keep x a b n : edit a b n -> edit (x :: a) (x :: b) n.

Definition subst_cost (x y : char) : nat := if (x =? y)%N then 0 else 1.

Fixpoint levenshtein (a : str) : str -> nat :=
  fix against (b : str) : nat :=
    match a, b with
    | [], _ => length b
    | _, [] => length a
    | x :: a', y :: b' =>
        (levenshtein a' b + 1) `min`
        ((against b' + 1) `min` (levenshtein a' b' + subst_cost x y))
    end.

(** ** Concept matcher: [find_existing_concepts] *)

(** [p in s] on strings. *)
Fixpoint starts_with (p s : str) : bool :=
  match p, s with
  | [], _ => true
  | _ :: _, [] => false
  | x :: p', y :: s' => (x =? y)%N && starts_with p' s'
  end.

Fixpoint contains (s p : str) : bool :=
  starts_with p s ||
  match s with
  | [] => false
  | _ :: s' => contains s' p
  end.

(** [x > 0.6] *)
Definition above_threshold (x : Q) : bool := negb (Qle_bool x (3 # 5)).

Definition len_gap (a b : str) : Z :=
  Z.abs (Z.of_nat (length a) - Z.of_nat (length b)).

(** One turn of the loop over [existing_concepts]. *)
Definition scan_step (new_lower : str) (connections : list str)
    (existing : str) : list str :=
  let existing_lower := lower existing in
  if contains existing_lower new_lower || contains new_lower existing_lower
     || (len_gap new_lower existing_lower <=? 2)%Z
  then
    let similarity := calculate_similarity new_lower existing_lower in
    if above_threshold similarity then connections ++ [existing]
    else connections
  else connections.

Definition find_existing_concepts (new_concept : str)
    (existing_concepts : list str) : list str :=
  let new_lower := lower new_concept in
  foldl (scan_step new_lower) [] existing_concepts.

(** ** Graph store *)

Record node := Node { id : nat; label : str; x : Z; y : Z; z : Z }.

Record edge := Edge { source : nat; target : nat }.

#[export] Instance edge_eq_dec : EqDecision edge.
Proof. solve_decision. Defined.

(** [concept_graph] and [all_generated_concepts]. *)
Record store := Store {
  nodes : list (nat * node);
  edges : list edge;
  all_generated_concepts : gset str
}.

Record response := Response { concept_id : nat; similar_connections : nat }.

(** [d[k] = v] on an insertion-ordered dictionary: an existing key keeps
    its position, a new key goes last. *)
Definition dict_set {V} (k : nat) (v : V) (d : list (nat * V)) : list (nat * V) :=
  if existsb (fun kv => kv.1 =? k) d
  then List.map (fun kv => if kv.1 =? k then (k, v) else kv) d
  else d ++ [(k, v)].

(** The scan [for node_id, node in nodes.items(): if node["label"] == l:
    ...; break]. *)
Fixpoint find_label (l : str) (d : list (nat * node)) : option nat :=
  match d with
  | [] => None
  | (node_id, nd) :: rest =>
      if bool_decide (label nd = l) then Some node_id else find_label l rest
  end.

(** Lines 264-284: reuse the first node carrying the label, or insert one
    under the key [len(nodes)]. *)
Definition insert_or_reuse (concept : str) (ns : list (nat * node))
    : list (nat * node) * nat :=
  let concept_id := length ns in
  match find_label concept ns with
  | None => (dict_set concept_id (Node concept_id concept 0 0 0) ns, concept_id)
  | Some existing_id => (ns, existing_id)
  end.

(** Lines 287-305.  [if parent:] holds for a string that is not empty,
    and fails for [None] and for [""]. *)
Definition link_parent (parent : option str) (ns : list (nat * node))
    (node_id : nat) (es : list edge) : list edge :=
  match parent with
  | Some ((_ :: _) as p) =>
      match find_label p ns with
      | Some parent_id =>
          if existsb (fun e => (source e =? parent_id) && (target e =? node_id)) es
          then es
          else es ++ [Edge parent_id node_id]
      | None => es
      end
  | _ => es
  end.

(** [similar != parent] *)
Definition differs_from (similar : str) (parent : option str) : bool :=
  match parent with
  | Some p => negb (bool_decide (similar = p))
  | None => true
  end.

(** Lines 311-331, one turn of the loop over [similar_concepts]. *)
Definition link_similar (concept : str) (parent : option str)
    (ns : list (nat * node)) (node_id : nat) (es : list edge) (similar : str)
    : list edge :=
  if negb (bool_decide (similar = concept)) && differs_from similar parent then
    match find_label similar ns with
    | Some similar_id =>
        if existsb (fun e =>
             (source e =? node_id) && (target e =? similar_id)
             || (source e =? similar_id) && (target e =? node_id)) es
        then es
        else es ++ [Edge node_id similar_id]
    | None => es
    end
  else es.

(** Lines 258-259: [if parent: parent = clean_concept(parent)]. *)
Definition clean_parent (parent : option str) : option str :=
  match parent with
  | Some ((_ :: _) as p) => Some (clean_concept p)
  | _ => parent
  end.

(** [POST /add-concept] *)
Definition add_concept (concept : str) (parent : option str) (st : store)
    : store * response :=
  let concept := clean_concept concept in
  let parent := clean_parent parent in
  let concepts := {[concept]} ∪ all_generated_concepts st in
  let '(ns, node_id) := insert_or_reuse concept (nodes st) in
  let es := link_parent parent ns node_id (edges st) in
  let existing_concepts := List.map (fun kv => label kv.2) ns in
  let similar_concepts := find_existing_concepts concept existing_concepts in
  let es := foldl (link_similar concept parent ns node_id) es similar_concepts in
  (Store ns es concepts, Response node_id (length similar_concepts)).

(** [GET /graph] *)
Definition get_graph (st : store) : list node * list edge :=
  (List.map snd (nodes st), edges st).

(** [DELETE /reset-graph] *)
Definition reset_graph (st : store) : store :=
  Store [] [] (all_generated_concepts st).

(** [GET /all-concepts] *)
Definition get_all_concepts (st : store) : list str :=
  elements (all_generated_concepts st).

(** The two mutating operations of the store, and the state they lead to
    from a graph with no node and no edge. *)
Inductive op := Ingest (concept : str) (parent : option str) | Reset.

Definition step (st : store) (o : op) : store :=
  match o with
  | Ingest concept parent => (add_concept concept parent st).1
  | Reset => reset_graph st
  end.

Definition run (ops : list op) (st : store) : store := foldl step st ops.

Definition empty_graph (concepts : gset str) : store := Store [] [] concepts.

(** ** Concept generation and analysis: what is done with the reply *)

(** The language-model call is outside the program: its outcome is an
    argument, either the text of [choices[0].message.content] or the
    message of the exception that the call (or the reading of its JSON)
    raised. *)
Inductive reply := Content (text : str) | Failure (message : str).

(** [s.split(sep)] for a one-character separator: every occurrence cuts, and
    empty pieces are kept. *)
Fixpoint split_on (sep : char) (s : str) : list str :=
  match s with
  | [] => [[]]
  | c :: rest =>
      if (c =? sep)%N then [] :: split_on sep rest
      else
        match split_on sep rest with
        | [] => [[c]]
        | piece :: pieces => (c :: piece) :: pieces
        end
  end.

(** [s.split()]: the maximal runs of characters that are not whitespace;
    [word] is the run being read. *)
Fixpoint split_words (word : str) (s : str) : list str :=
  match s with
  | [] => match word with [] => [] | _ => [word] end
  | c :: rest =>
      if py_isspace c
      then match word with
           | [] => split_words [] rest
           | _ => word :: split_words [] rest
           end
      else split_words (word ++ [c]) rest
  end.

Definition py_split (s : str) : list str := split_words [] s.

(** [str(n)] for a count. *)
Definition py_str_nat (n : nat) : str :=
  lit (NilZero.string_of_uint (Nat.to_uint n)).

(** [cleaned and len(cleaned) > 1] *)
Definition is_valid_concept (cleaned : str) : bool :=
  match cleaned with
  | _ :: _ :: _ => true
  | _ => false
  end.

(** [f"Relacionado{n}"] *)
Definition fallback_concept (n : nat) : str :=
  lit "Relacionado" ++ py_str_nat n.

(** [[concept.strip() for concept in text.split('\n') if concept.strip()]] *)
Definition raw_concepts (concepts_text : str) : list str :=
  List.filter (fun concept => negb (bool_decide (concept = [])))
    (List.map strip (split_on 10 concepts_text)).

(** Lines 236-241 of [main.py], one turn: a valid cleaned concept goes to
    the set and to the result. *)
Definition keep_concept (acc : list str * gset str) (concept : str)
    : list str * gset str :=
  let cleaned := clean_concept concept in
  if is_valid_concept cleaned
  then (acc.1 ++ [cleaned], {[cleaned]} ∪ acc.2)
  else acc.

(** Lines 244-247: [while len(related_concepts) < 3]; the loop body makes
    the list longer, so three turns are enough. *)
Fixpoint pad_fallbacks (turns : nat) (acc : list str * gset str)
    : list str * gset str :=
  match turns with
  | 0 => acc
  | S turns' =>
      if length acc.1 <? 3 then
        let fallback := fallback_concept (length acc.1 + 1) in
        pad_fallbacks turns' (acc.1 ++ [fallback], {[fallback]} ∪ acc.2)
      else acc
  end.

(** [POST /generate-concepts] of [main.py] after the call: the new store
    and either the three related concepts or the detail of the HTTP 500. *)
Definition generate_concepts (r : reply) (st : store)
    : store * (list str + str) :=
  match r with
  | Content text =>
      let concepts_text := strip text in
      let acc :=
        foldl keep_concept ([], all_generated_concepts st)
          (take 3 (raw_concepts concepts_text)) in
      let acc := pad_fallbacks 3 acc in
      (Store (nodes st) (edges st) acc.2, inl (take 3 acc.1))
  | Failure message =>
      (st, inr (lit "Error generating concepts: " ++ message))
  end.

Record analysis := Analysis {
  is_concept : bool;
  extracted_concept : str;
  explanation : str
}.

Definition a_acute : char := 225%N.

(** "Análisis automático aplicado" *)
Definition automatic_analysis : str :=
  lit "An" ++ [a_acute] ++ lit "lisis autom" ++ [a_acute] ++ lit "tico aplicado".

(** "Error en análisis: " *)
Definition analysis_error : str :=
  lit "Error en an" ++ [a_acute] ++ lit "lisis: ".

(** The [except Exception as e] branch of both analysers. *)
Definition error_analysis (text : str) (message : str) : analysis :=
  let cleaned :=
    match py_split text with
    | word :: _ => clean_concept word
    | [] => lit "Concepto"
    end in
  Analysis true cleaned (analysis_error ++ message).

(** Lines 171-184 of [main.py]: a reply with at least three fields. *)
Definition parsed_analysis (parts : list str) : analysis :=
  let concept_type := strip (parts !!! 0) in
  let extracted := strip (parts !!! 1) in
  let explanation := strip (parts !!! 2) in
  Analysis (bool_decide (concept_type = lit "CONCEPTO"))
    (clean_concept extracted) explanation.

(** [POST /analyze-concept] of [main.py] after the call.  In the [else]
    branch [request.text.split()[0]] raises [IndexError] on a text without
    a word, and the handler of the [try] takes over. *)
Definition analyze_concept (text : str) (r : reply) : analysis :=
  match r with
  | Content content =>
      let parts := split_on 124 (strip content) in
      if 3 <=? length parts then parsed_analysis parts
      else
        match py_split text with
        | word :: _ => Analysis true (clean_concept word) automatic_analysis
        | [] => error_analysis text (lit "list index out of range")
        end
  | Failure message => error_analysis text message
  end.

(** The same request in [api/analyze-concept.py], where the [else] branch
    tests [text.split()] first. *)
Definition analyze_concept_handler (text : str) (r : reply) : analysis :=
  match r with
  | Content content =>
      let parts := split_on 124 (strip content) in
      if 3 <=? length parts then parsed_analysis parts
      else
        let cleaned :=
          match py_split text with
          | word :: _ => clean_concept word
          | [] => lit "Concepto"
          end in
        Analysis true cleaned automatic_analysis
  | Failure message => error_analysis text message
  end.

(** * Specification-level notions *)

(** [d] is the least number of operations that turn [a] into [b]. *)
Definition is_dist (a b : str) (d : nat) : Prop :=
  edit a b d /\ forall n, edit a b n -> d <= n.

(** The table has [len(str1)+1] rows of [len(str2)+1] cells. *)
Definition dims (str1 str2 : str) (matrix : list (list nat)) : Prop :=
  length matrix = length str1 + 1 /\
  forall i, i <= length str1 -> length (matrix !!! i) = length str2 + 1.

(** Cell [(i, j)] holds the distance between the prefixes of lengths [i]
    and [j]. *)
Definition cell_ok (str1 str2 : str) (matrix : list (list nat)) (i j : nat)
    : Prop :=
  is_dist (take i str1) (take j str2) (mget matrix i j).

(** The cells written so far when the nested loops stand at [(i0, j0)]. *)
Definition filled (str1 str2 : str) (matrix : list (list nat)) (i0 j0 : nat)
    : Prop :=
  dims str1 str2 matrix /\
  forall i j, i <= length str1 -> j <= length str2 ->
    i = 0 \/ j = 0 \/ i < i0 \/ (i = i0 /\ j < j0) ->
    cell_ok str1 str2 matrix i j.

(** The test that [scan_step] applies to an existing label. *)
Definition is_connection (new_lower existing : list N) : bool :=
  let existing_lower := lower existing in
  (contains existing_lower new_lower || contains new_lower existing_lower
   || (len_gap new_lower existing_lower <=? 2)%Z)
  && above_threshold (calculate_similarity new_lower existing_lower).

(** The labels of the nodes, in iteration order: line 308. *)
Definition labels (ns : list (nat * node)) : list str :=
  List.map (fun kv => label kv.2) ns.

(** An edge that the loop of lines 311-331 may append: it leaves the
    concept's node for the first node that carries a label other than the
    concept's and the parent's. *)
Definition similarity_edge (concept : str) (parent : option str)
    (ns : list (nat * node)) (node_id : nat) (e : edge) : Prop :=
  source e = node_id /\
  exists similar, similar <> concept /\ parent <> Some similar
    /\ find_label similar ns = Some (target e).

(** The three facts that every reachable store satisfies: the keys of the
    node dictionary are [0 .. len-1] in insertion order, labels are pairwise
    distinct, and so are edges. *)
Record store_inv (st : store) : Prop := {
  inv_keys : (nodes st).*1 = seq 0 (length (nodes st));
  inv_labels : NoDup (labels (nodes st));
  inv_edges : NoDup (edges st)
}.

(** The string after lines 63 and 66, before capitalisation. *)
Definition collapsed (concept : list N) : list N :=
  strip (sub_spaces false (sub_leading_markers concept)).

Definition e_acute : char := 233%N.

(** Word characters other than decimal digits; these or whitespace; these
    or the space character. *)
Definition letterish (c : char) : bool := py_isword c && negb (py_isdecimal c).

Definition letter_or_space (c : char) : bool := letterish c || py_isspace c.

Definition letter_or_blank (c : char) : bool := letterish c || (c =? 32)%N.

(** A string that [re.sub(r'\s+', ' ', _)] leaves alone, read with the
    flag of [sub_spaces]. *)
Definition fixed (b : bool) (s : str) : Prop := sub_spaces b s = s.

(** The shape of a collapsed string: letters and single blanks, no blank
    at either end. *)
Definition tidy (s : str) : Prop :=
  Forall (fun c => letter_or_blank c = true) s
  /\ fixed false s /\ lstrip s = s /\ rstrip s = s.

(** A label that is not the empty string. *)
Definition nonempty (l : list N) : bool := negb (bool_decide (l = [])).

(** A whitespace character is the plain space. *)
Definition plain_space (c : N) : Prop := py_isspace c = true -> c = 32%N.

(** A string that is empty or starts with a Latin-1 character that is
    neither a list marker nor whitespace. *)
Definition bare (s : list N) : bool :=
  match s with
  | [] => true
  | c :: _ => (c <=? 255)%N && negb (is_marker c) && negb (py_isspace c)
  end.

(** The cleaned lines that pass the test of line 238. *)
Definition kept_concepts (lines : list (list N)) : list (list N) :=
  List.filter is_valid_concept (List.map clean_concept lines).

(** The fallback names appended when [have] concepts were kept. *)
Definition fallbacks (have : nat) : list (list N) :=
  List.map fallback_concept (seq (have + 1) (3 - have)).

(** How often a character occurs in a string. *)
Definition occurrences (sep : N) (s : list N) : nat :=
  length (List.filter (fun c => (c =? sep)%N) s).

(** A reply that does not give three fields: fewer than two bars, or no
    reply at all. *)
Definition malformed (r : reply) : Prop :=
  match r with
  | Content content => occurrences 124 content < 2
  | Failure _ => True
  end.

(** A node as [add_concept] creates it under its key. *)
Definition node_ok (kv : nat * node) : Prop :=
  id kv.2 = kv.1 /\ x kv.2 = 0%Z /\ y kv.2 = 0%Z /\ z kv.2 = 0%Z.

(** An edge between two keys of the node dictionary. *)
Definition edge_ok (ns : list (nat * node)) (e : edge) : Prop :=
  source e < length ns /\ target e < length ns.

(** [store_inv] together with the shape of nodes and edges. *)
Record store_wf (st : store) : Prop := {
  wf_inv : store_inv st;
  wf_nodes : Forall node_ok (nodes st);
  wf_edges : Forall (edge_ok (nodes st)) (edges st)
}.

(** The alphabet on which every table above is Python's and which the
    normaliser maps into itself up to U+0178 and U+039C: Latin-1 and
    whitespace. *)
Definition in_alphabet (c : char) : bool := (c <=? 255)%N || py_isspace c.

(** Whitespace, or a Latin-1 word character other than a decimal digit. *)
Definition latin_letter_or_space (c : char) : bool :=
  (c <=? 255)%N && letterish c || py_isspace c.

(** The upper-case letters of Latin-1: A-Z, U+00C0-U+00D6, U+00D8-U+00DE. *)
Definition upper_letter (c : char) : bool :=
  in_range 65 90 c || in_range 192 214 c || in_range 216 222 c.

(** The Latin-1 letters with a title-case form of their own: a-z, the micro
    sign, U+00DF-U+00F6, U+00F8-U+00FF. *)
Definition lower_letter (c : char) : bool :=
  in_range 97 122 c || (c =? 181)%N || in_range 223 246 c || in_range 248 255 c.

(** No upper-case letter after the first character. *)
Definition lower_tail (s : str) : Prop :=
  Forall (fun c => upper_letter c = false) (drop 1 s).

(** Each edge of [added] joins two nodes that no edge joined, in either
    direction, among [es] and the edges of [added] before it. *)
Fixpoint fresh_links (es added : list edge) : Prop :=
  match added with
  | [] => True
  | e :: more =>
      (Edge (source e) (target e) ∉ es) /\ (Edge (target e) (source e) ∉ es)
      /\ fresh_links (es ++ [e]) more
  end.

(** An edge of the similarity loop: from the concept's node to the first
    node carrying a label that the matcher returned (pre-filter passed and
    similarity above 0.6) and that is neither the concept nor the parent. *)
Definition similarity_link (concept : str) (parent : option str)
    (ns : list (nat * node)) (node_id : nat) (e : edge) : Prop :=
  source e = node_id /\
  exists similar,
    similar ∈ labels ns /\ is_connection (lower concept) similar = true
    /\ similar <> concept /\ parent <> Some similar
    /\ find_label similar ns = Some (target e).

(** * Properties *)

(** ** Edit scripts *)

Section EditScripts.

Implicit Types a b : list N.

Lemma edit_sym a b n : edit a b n -> edit b a n.
Proof. induction 1; eauto using edit. Qed.

Lemma edit_length a b n : edit a b n -> length a <= length b + n.
Proof. induction 1; simpl; lia. Qed.

Lemma edit_from_nil b : edit [] b (length b).
Proof. induction b; simpl; eauto using edit. Qed.

Lemma edit_to_nil a : edit a [] (length a).
Proof. induction a; simpl; eauto using edit. Qed.

Lemma edit_refl a : edit a a 0.
Proof. induction a; eauto using edit. Qed.

(** The four operations applied at the right end. *)
Lemma edit_delete_last x a b n : edit a b n -> edit (a ++ [x]) b (S n).
Proof. induction 1; simpl; eauto using edit. Qed.

Lemma edit_insert_last y a b n : edit a b n -> edit a (b ++ [y]) (S n).
Proof. induction 1; simpl; eauto using edit. Qed.

Lemma edit_subst_last x y a b n : edit a b n -> edit (a ++ [x]) (b ++ [y]) (S n).
Proof. induction 1; simpl; eauto using edit. Qed.

Lemma edit_keep_last x a b n : edit a b n -> edit (a ++ [x]) (b ++ [x]) n.
Proof. induction 1; simpl; eauto using edit. Qed.

Lemma edit_rev a b n : edit a b n -> edit (rev a) (rev b) n.
Proof.
  induction 1; simpl;
    eauto using edit, edit_delete_last, edit_insert_last, edit_subst_last,
      edit_keep_last.
Qed.

Lemma edit_unrev a b n : edit (rev a) (rev b) n -> edit a b n.
Proof.
  intros H. apply edit_rev in H. by rewrite !rev_involutive in H.
Qed.

(** Forgetting the first character of the target costs at most one more
    operation. *)
Lemma edit_drop_head y a b n :
  edit a (y :: b) n -> exists m, m <= S n /\ edit a b m.
Proof.
  intros H. remember (y :: b) as b' eqn:E. revert y b E.
  induction H as [|x a b' n H IH|y' a b' n H IH|x y' a b' n H IH|x a b' n H IH];
    intros y b E.
  - discriminate.
  - destruct (IH _ _ E) as (m & Hm & He).
    exists (S m). split; [lia | by constructor].
  - injection E as -> ->. exists n. split; [lia | done].
  - injection E as -> ->. exists (S n). split; [lia | by constructor].
  - injection E as -> ->. exists (S n). split; [lia | by constructor].
Qed.

Lemma edit_drop_last_r y a b n :
  edit a (b ++ [y]) n -> exists m, m <= S n /\ edit a b m.
Proof.
  intros H. apply edit_rev in H. rewrite rev_app_distr in H. simpl in H.
  apply edit_drop_head in H as (m & Hm & He).
  exists m. split; [done | by apply edit_unrev].
Qed.

Lemma edit_drop_last_l x a b n :
  edit (a ++ [x]) b n -> exists m, m <= S n /\ edit a b m.
Proof.
  intros H. apply edit_sym, edit_drop_last_r in H as (m & Hm & He).
  exists m. split; [done | by apply edit_sym].
Qed.

(** The last operation of a script between two strings that both end in a
    character. *)
Lemma edit_last_inv x y a b n :
  edit (a ++ [x]) (b ++ [y]) n ->
  (exists n', n = S n' /\ edit a (b ++ [y]) n')
  \/ (exists n', n = S n' /\ edit (a ++ [x]) b n')
  \/ (exists n', n = S n' /\ edit a b n')
  \/ (x = y /\ edit a b n).
Proof.
  intros H. apply edit_rev in H. rewrite !rev_app_distr in H. simpl in H.
  inversion H as [|x' a' b' n' H'|y' a' b' n' H'|x' y' a' b' n' H'|x' a' b' n' H'];
    subst.
  - left. exists n'. split; [done|].
    apply edit_unrev. by rewrite rev_app_distr.
  - right; left. exists n'. split; [done|].
    apply edit_unrev. by rewrite rev_app_distr.
  - right; right; left. exists n'. split; [done | by apply edit_unrev].
  - right; right; right. split; [done | by apply edit_unrev].
Qed.

Lemma is_dist_unique a b d d' : is_dist a b d -> is_dist a b d' -> d = d'.
Proof.
  intros [H1 H2] [H3 H4]. apply H2 in H3. apply H4 in H1. lia.
Qed.

Lemma is_dist_from_nil b : is_dist [] b (length b).
Proof.
  split; [apply edit_from_nil|].
  intros n H. apply edit_sym, edit_length in H. simpl in H. lia.
Qed.

Lemma is_dist_to_nil a : is_dist a [] (length a).
Proof.
  split; [apply edit_to_nil|].
  intros n H. apply edit_length in H. simpl in H. lia.
Qed.

Lemma is_dist_keep_last x a b d :
  is_dist a b d -> is_dist (a ++ [x]) (b ++ [x]) d.
Proof.
  intros [He Hmin]. split; [by apply edit_keep_last|].
  intros n H.
  destruct (edit_last_inv _ _ _ _ _ H)
    as [(n' & -> & H')|[(n' & -> & H')|[(n' & -> & H')|[_ H']]]].
  - apply edit_drop_last_r in H' as (m & Hm & H'). apply Hmin in H'. lia.
  - apply edit_drop_last_l in H' as (m & Hm & H'). apply Hmin in H'. lia.
  - apply Hmin in H'. lia.
  - by apply Hmin.
Qed.

Lemma is_dist_change_last x y a b d1 d2 d3 :
  x <> y ->
  is_dist a (b ++ [y]) d1 -> is_dist (a ++ [x]) b d2 -> is_dist a b d3 ->
  is_dist (a ++ [x]) (b ++ [y])
    ((d1 + 1) `min` ((d2 + 1) `min` (d3 + 1))).
Proof.
  intros Hxy [He1 Hmin1] [He2 Hmin2] [He3 Hmin3]. split.
  - destruct (Nat.min_spec (d2 + 1) (d3 + 1)) as [[_ ->]|[_ ->]];
      match goal with
      | |- context [?u `min` ?v] =>
          destruct (Nat.min_spec u v) as [[_ ->]|[_ ->]]
      end;
      rewrite Nat.add_1_r;
      auto using edit_delete_last, edit_insert_last, edit_subst_last.
  - intros n H.
    destruct (edit_last_inv _ _ _ _ _ H)
      as [(n' & -> & H')|[(n' & -> & H')|[(n' & -> & H')|[E _]]]].
    + apply Hmin1 in H'. lia.
    + apply Hmin2 in H'. lia.
    + apply Hmin3 in H'. lia.
    + done.
Qed.

End EditScripts.

(** ** The recursion computes the least script length *)

Lemma levenshtein_nil_l (b : list N) : levenshtein [] b = length b.
Proof. by destruct b. Qed.

Lemma levenshtein_nil_r (a : list N) : levenshtein a [] = length a.
Proof. by destruct a. Qed.

Lemma levenshtein_cons x y (a b : list N) :
  levenshtein (x :: a) (y :: b) =
  (levenshtein a (y :: b) + 1) `min`
  ((levenshtein (x :: a) b + 1) `min` (levenshtein a b + subst_cost x y)).
Proof. done. Qed.

Lemma levenshtein_edit (a b : list N) : edit a b (levenshtein a b).
Proof.
  revert b. induction a as [|x a IHa]; intros b.
  - rewrite levenshtein_nil_l. apply edit_from_nil.
  - induction b as [|y b IHb].
    + apply (edit_to_nil (x :: a)).
    + rewrite levenshtein_cons.
      destruct (Nat.min_spec (levenshtein (x :: a) b + 1)
                  (levenshtein a b + subst_cost x y)) as [[_ ->]|[_ ->]];
        match goal with
        | |- context [?u `min` ?v] =>
            destruct (Nat.min_spec u v) as [[_ ->]|[_ ->]]
        end;
        rewrite ?Nat.add_1_r; try by constructor.
      all: unfold subst_cost; destruct (N.eqb_spec x y) as [->|_];
        rewrite ?Nat.add_0_r, ?Nat.add_1_r; by constructor.
Qed.

Lemma levenshtein_least (a b : list N) n : edit a b n -> levenshtein a b <= n.
Proof.
  induction 1 as [|x a b n H IH|y a b n H IH|x y a b n H IH|x a b n H IH].
  - done.
  - destruct b as [|y b].
    + rewrite levenshtein_nil_r in *. simpl. lia.
    + rewrite levenshtein_cons. lia.
  - destruct a as [|x a].
    + rewrite levenshtein_nil_l in *. simpl. lia.
    + rewrite levenshtein_cons. lia.
  - rewrite levenshtein_cons. unfold subst_cost. destruct (x =? y)%N; lia.
  - rewrite levenshtein_cons. unfold subst_cost. rewrite N.eqb_refl. lia.
Qed.

Lemma levenshtein_is_dist (a b : list N) : is_dist a b (levenshtein a b).
Proof. split; [apply levenshtein_edit | apply levenshtein_least]. Qed.

Lemma levenshtein_refl (a : list N) : levenshtein a a = 0.
Proof.
  pose proof (levenshtein_least a a 0 (edit_refl a)). lia.
Qed.

Lemma levenshtein_le_max (a b : list N) :
  levenshtein a b <= length a `max` length b.
Proof.
  revert b. induction a as [|x a IH]; intros [|y b];
    rewrite ?levenshtein_nil_l, ?levenshtein_nil_r; simpl length; try lia.
  rewrite levenshtein_cons. specialize (IH b). unfold subst_cost.
  destruct (x =? y)%N; lia.
Qed.

(** ** The table of [calculate_similarity] *)

Section Table.

Implicit Types matrix : list (list nat).

Lemma foldl_snoc {A B} (f : A -> B -> A) (acc : A) (l : list B) (u : B) :
  foldl f acc (l ++ [u]) = f (foldl f acc l) u.
Proof. revert acc. induction l; simpl; auto. Qed.

Lemma mset_length matrix i j v : length (mset matrix i j v) = length matrix.
Proof. apply length_insert. Qed.

Lemma mset_row_length matrix i j v k :
  length (mset matrix i j v !!! k) = length (matrix !!! k).
Proof.
  unfold mset. rewrite list_lookup_total_insert.
  case_decide as H; [|done]. destruct H as [-> _]. apply length_insert.
Qed.

Lemma mget_mset_eq matrix i j v :
  i < length matrix -> j < length (matrix !!! i) ->
  mget (mset matrix i j v) i j = v.
Proof.
  intros Hi Hj. unfold mget, mset.
  rewrite list_lookup_total_insert_eq by done.
  by rewrite list_lookup_total_insert_eq.
Qed.

Lemma mget_mset_ne matrix i j v i' j' :
  i <> i' \/ j <> j' -> mget (mset matrix i j v) i' j' = mget matrix i' j'.
Proof.
  intros H. unfold mget, mset. rewrite list_lookup_total_insert.
  case_decide as E; [|done]. destruct E as [<- _].
  destruct H as [H|H]; [done|]. by rewrite list_lookup_total_insert_ne.
Qed.

Variables str1 str2 : list N.

Lemma dims_mset matrix i j v : dims str1 str2 matrix -> dims str1 str2 (mset matrix i j v).
Proof.
  intros [H1 H2]. split; [by rewrite mset_length|].
  intros k Hk. rewrite mset_row_length. auto.
Qed.

Lemma dims_replicate :
  dims str1 str2 (replicate (length str1 + 1) (replicate (length str2 + 1) 0)).
Proof.
  split; [apply length_replicate|]. intros i Hi.
  rewrite list_lookup_total_alt, lookup_replicate_2 by lia.
  apply length_replicate.
Qed.

(** First loop: column 0 holds the row number. *)
Lemma first_column matrix n :
  dims str1 str2 matrix -> n <= length str1 + 1 ->
  let matrix' := foldl (fun m i => mset m i 0 i) matrix (seq 0 n) in
  dims str1 str2 matrix' /\ forall i, i < n -> mget matrix' i 0 = i.
Proof.
  intros Hd. cbv zeta. induction n as [|n IH]; intros Hn.
  - split; [done | lia].
  - rewrite seq_S, foldl_snoc. simpl. destruct IH as [Hd' Hc]; [lia|].
    split; [by apply dims_mset|]. intros i Hi.
    destruct (decide (i = n)) as [->|Hne].
    + destruct Hd' as [H1 H2]. apply mget_mset_eq; [lia|].
      rewrite H2; lia.
    + rewrite mget_mset_ne by auto. apply Hc. lia.
Qed.

(** Second loop: row 0 holds the column number; column 0 is kept. *)
Lemma first_row matrix n :
  dims str1 str2 matrix -> n <= length str2 + 1 ->
  (forall i, i <= length str1 -> mget matrix i 0 = i) ->
  let matrix' := foldl (fun m j => mset m 0 j j) matrix (seq 0 n) in
  dims str1 str2 matrix' /\ (forall i, i <= length str1 -> mget matrix' i 0 = i)
  /\ forall j, j < n -> mget matrix' 0 j = j.
Proof.
  intros Hd. cbv zeta. induction n as [|n IH]; intros Hn Hcol.
  - repeat split; [apply Hd..|done|lia].
  - rewrite seq_S, foldl_snoc. simpl. destruct IH as (Hd' & Hc & Hr); [lia|done|].
    split; [by apply dims_mset|]. split.
    + intros i Hi. destruct (decide (n = 0 /\ i = 0)) as [[-> ->]|Hne].
      * destruct Hd' as [H1 H2]. apply mget_mset_eq; [lia|]. rewrite H2; lia.
      * rewrite mget_mset_ne by lia. by apply Hc.
    + intros j Hj. destruct (decide (j = n)) as [->|Hne].
      * destruct Hd' as [H1 H2]. apply mget_mset_eq; [lia|]. rewrite H2; lia.
      * rewrite mget_mset_ne by auto. apply Hr. lia.
Qed.

Lemma take_last (s : list N) k :
  1 <= k <= length s -> take k s = take (k - 1) s ++ [s !!! (k - 1)].
Proof.
  intros Hk. replace k with (S (k - 1)) at 1 by lia.
  apply take_S_r, list_lookup_lookup_total_lt. lia.
Qed.

Lemma fill_cell_filled matrix i j :
  1 <= i <= length str1 -> 1 <= j <= length str2 ->
  filled str1 str2 matrix i j -> filled str1 str2 (fill_cell str1 str2 i matrix j) i (S j).
Proof.
  intros Hi Hj [Hd Hc].
  assert (cell_ok str1 str2 matrix (i - 1) (j - 1)) as H3 by (apply Hc; lia).
  assert (cell_ok str1 str2 matrix (i - 1) j) as H1 by (apply Hc; lia).
  assert (cell_ok str1 str2 matrix i (j - 1)) as H2 by (apply Hc; lia).
  unfold cell_ok in H1, H2, H3.
  assert (cell_ok str1 str2 (fill_cell str1 str2 i matrix j) i j) as Hnew.
  { unfold cell_ok, fill_cell.
    rewrite (take_last str1 i), (take_last str2 j) by done.
    rewrite (take_last str1 i) in H2 by done.
    rewrite (take_last str2 j) in H1 by done.
    destruct Hd as [Hd1 Hd2].
    destruct (N.eqb_spec (str1 !!! (i - 1)) (str2 !!! (j - 1))) as [E|E];
      (rewrite mget_mset_eq; [|lia|rewrite Hd2; lia]).
    - rewrite E. by apply is_dist_keep_last.
    - by apply is_dist_change_last. }
  split.
  - unfold fill_cell. destruct (N.eqb _ _); by apply dims_mset.
  - intros i' j' Hi' Hj' Hpos.
    destruct (decide (i' = i /\ j' = j)) as [[-> ->]|Hne]; [done|].
    unfold cell_ok, fill_cell.
    destruct (N.eqb _ _); rewrite mget_mset_ne by lia; apply Hc; lia.
Qed.

Lemma fill_row_filled matrix i :
  1 <= i <= length str1 ->
  filled str1 str2 matrix i 1 -> filled str1 str2 (fill_row str1 str2 matrix i) (S i) 1.
Proof.
  intros Hi Hf.
  assert (forall k, k <= length str2 ->
    filled str1 str2 (foldl (fill_cell str1 str2 i) matrix (seq 1 k)) i (S k)) as Hk.
  { induction k as [|k IH]; intros Hk; [done|].
    rewrite seq_S, foldl_snoc. apply fill_cell_filled; [done|lia|].
    apply IH. lia. }
  destruct (Hk (length str2)) as [Hd Hc]; [done|].
  split; [done|]. intros i' j' Hi' Hj' Hpos. apply Hc; lia.
Qed.

Lemma fill_filled : filled str1 str2 (fill str1 str2) (S (length str1)) 1.
Proof.
  unfold fill.
  destruct (first_column _ (length str1 + 1) dims_replicate) as [Hd Hcol]; [done|].
  destruct (first_row _ (length str2 + 1) Hd) as (Hd' & Hcol' & Hrow);
    [done|intros; apply Hcol; lia|].
  set (m0 := foldl (fun m j => mset m 0 j j) _ _) in *.
  assert (filled str1 str2 m0 1 1) as H0.
  { split; [done|]. intros i j Hi Hj Hpos. unfold cell_ok.
    assert (i = 0 \/ j = 0) as [->| ->] by lia.
    - rewrite Hrow by lia. rewrite take_0.
      replace j with (length (take j str2)) at 2 by (rewrite length_take; lia).
      apply is_dist_from_nil.
    - rewrite Hcol' by lia. rewrite take_0.
      replace i with (length (take i str1)) at 2 by (rewrite length_take; lia).
      apply is_dist_to_nil. }
  assert (forall k, k <= length str1 ->
    filled str1 str2 (foldl (fill_row str1 str2) m0 (seq 1 k)) (S k) 1) as Hk.
  { induction k as [|k IH]; intros Hk; [done|].
    rewrite seq_S, foldl_snoc. apply fill_row_filled; [lia|].
    apply IH. lia. }
  by apply Hk.
Qed.

(** All reads and writes of the loops stay inside the allocated table. *)
Lemma fill_dims : dims str1 str2 (fill str1 str2).
Proof. apply fill_filled. Qed.

Lemma fill_levenshtein :
  mget (fill str1 str2) (length str1) (length str2) = levenshtein str1 str2.
Proof.
  destruct fill_filled as [_ Hc].
  specialize (Hc (length str1) (length str2)). unfold cell_ok in Hc.
  rewrite !firstn_all in Hc.
  eapply is_dist_unique; [apply Hc; lia | apply levenshtein_is_dist].
Qed.

End Table.

(** ** The similarity score *)

Lemma Qnat_pos m : 0 < m -> (0 < Qnat m)%Q.
Proof. intros H. unfold Qnat. rewrite <- (Zlt_Qlt 0). lia. Qed.

Lemma ratio_bounds d m :
  d <= m -> 0 < m -> (0 <= 1 - Qnat d / Qnat m <= 1)%Q.
Proof.
  intros Hd Hm. pose proof (Qnat_pos m Hm) as Hpos.
  assert (0 <= Qnat d / Qnat m)%Q as H0.
  { apply Qle_shift_div_l; [done|]. rewrite Qmult_0_l.
    unfold Qnat. rewrite <- (Zle_Qle 0). lia. }
  assert (Qnat d / Qnat m <= 1)%Q as H1.
  { apply Qle_shift_div_r; [done|]. rewrite Qmult_1_l.
    unfold Qnat. rewrite <- Zle_Qle. lia. }
  split; lra.
Qed.

Lemma ratio_zero m : (1 - Qnat 0 / Qnat m == 1)%Q.
Proof. unfold Qdiv. change (Qnat 0) with 0%Q. rewrite Qmult_0_l. lra. Qed.

Lemma calculate_similarity_nonempty (a b : list N) :
  a <> [] -> b <> [] ->
  calculate_similarity a b =
  (1 - Qnat (levenshtein a b) / Qnat (length a `max` length b))%Q.
Proof.
  intros Ha Hb. unfold calculate_similarity.
  destruct a as [|x a]; [done|]. destruct b as [|y b]; [done|].
  change (length (x :: a) =? 0) with false.
  change (length (y :: b) =? 0) with false.
  cbv iota zeta. by rewrite fill_levenshtein.
Qed.

Lemma calculate_similarity_same (a : list N) :
  a <> [] -> (calculate_similarity a a == 1)%Q.
Proof.
  intros Ha. rewrite calculate_similarity_nonempty by done.
  rewrite levenshtein_refl. apply ratio_zero.
Qed.

(** C1. On two non-empty strings [calculate_similarity] returns one minus
    the Levenshtein distance (the least number of unit-cost insertions,
    deletions and substitutions) over the larger length; the value lies
    between 0 and 1, it is 1 on equal arguments, and it is 1 - 1/3 on "cat"
    and "bat". *)
Theorem calculate_similarity_levenshtein (a b : list N) :
  a <> [] -> b <> [] ->
  calculate_similarity a b =
    (1 - Qnat (levenshtein a b) / Qnat (length a `max` length b))%Q
  /\ is_dist a b (levenshtein a b)
  /\ (0 <= calculate_similarity a b <= 1)%Q
  /\ (calculate_similarity a a == 1)%Q
  /\ (calculate_similarity (lit "cat") (lit "bat") == 1 - 1 / 3)%Q.
Proof.
  intros Ha Hb. split; [by apply calculate_similarity_nonempty|].
  split; [apply levenshtein_is_dist|]. split; [|split].
  - rewrite calculate_similarity_nonempty by done.
    apply ratio_bounds; [apply levenshtein_le_max|].
    destruct a; [done | simpl; lia].
  - by apply calculate_similarity_same.
  - by vm_compute.
Qed.

Lemma calculate_similarity_levenshtein_witness :
  lit "kitten" <> [] /\ lit "sitting" <> [] /\
  calculate_similarity (lit "kitten") (lit "sitting") =
    (1 - Qnat (levenshtein (lit "kitten") (lit "sitting")) / Qnat (6 `max` 7))%Q.
Proof.
  split; [done|]. split; [done|].
  apply (calculate_similarity_levenshtein (lit "kitten") (lit "sitting")); done.
Defined.

(** C2. With an empty argument [calculate_similarity] takes one of its two
    early returns and hands back the length of the other argument: 0 on two
    empty strings (not 1) and [len(b)] on an empty and a non-empty string
    (not 0). *)
Theorem calculate_similarity_empty_returns_length (b : list N) :
  calculate_similarity [] b = Qnat (length b)
  /\ calculate_similarity b [] = Qnat (length b)
  /\ ~ (calculate_similarity [] [] == 1)%Q
  /\ ~ (calculate_similarity [] (lit "x") == 0)%Q
  /\ (calculate_similarity [] (lit "abc") == 3)%Q.
Proof.
  split; [done|]. split; [by destruct b|]. by vm_compute.
Qed.

(** ** The concept matcher as a filter *)

Lemma scan_step_connection new_lower connections existing :
  scan_step new_lower connections existing =
  if is_connection new_lower existing then connections ++ [existing]
  else connections.
Proof.
  unfold scan_step, is_connection. cbv zeta.
  by destruct (_ || _ || _), (above_threshold _).
Qed.

Lemma scan_filter new_lower connections existing_concepts :
  foldl (scan_step new_lower) connections existing_concepts =
  connections ++ List.filter (is_connection new_lower) existing_concepts.
Proof.
  revert connections.
  induction existing_concepts as [|e l IH]; intros connections; simpl.
  - by rewrite app_nil_r.
  - rewrite IH, scan_step_connection.
    destruct (is_connection new_lower e); [|done]. by rewrite <- app_assoc.
Qed.

Lemma find_existing_concepts_filter new_concept existing_concepts :
  find_existing_concepts new_concept existing_concepts =
  List.filter (is_connection (lower new_concept)) existing_concepts.
Proof. unfold find_existing_concepts. by rewrite scan_filter. Qed.

Lemma starts_with_refl (s : list N) : starts_with s s = true.
Proof. induction s as [|c s IH]; simpl; [done|]. by rewrite N.eqb_refl. Qed.

Lemma contains_refl (s : list N) : contains s s = true.
Proof. destruct s; simpl; [done|]. by rewrite N.eqb_refl, starts_with_refl. Qed.

Lemma above_threshold_one (q : Q) : (q == 1)%Q -> above_threshold q = true.
Proof.
  intros H. unfold above_threshold. apply negb_true_iff.
  destruct (Qle_bool q (3 # 5)) eqn:E; [|done].
  apply Qle_bool_iff in E. rewrite H in E. by vm_compute in E.
Qed.

(** A label that is not empty is a connection of itself. *)
Lemma is_connection_self (concept : list N) :
  concept <> [] -> is_connection (lower concept) concept = true.
Proof.
  intros H. unfold is_connection. cbv zeta.
  rewrite contains_refl. simpl. apply above_threshold_one.
  apply calculate_similarity_same. by destruct concept.
Qed.

(** ** Graph store *)

Section GraphStore.

Implicit Types (ns : list (nat * node)) (es : list edge) (l : list N).

Lemma find_label_None l ns :
  find_label l ns = None <-> l ∉ labels ns.
Proof.
  induction ns as [|[k nd] ns IH]; simpl.
  - split; [intros _; apply not_elem_of_nil | done].
  - rewrite not_elem_of_cons. case_bool_decide as E; simpl.
    + split; [done | intros [H _]; by destruct H].
    + rewrite IH. split; [by intros ? | by intros [_ ?]].
Qed.

Lemma find_label_Some l ns k :
  find_label l ns = Some k -> exists nd, (k, nd) ∈ ns /\ label nd = l.
Proof.
  induction ns as [|[k' nd] ns IH]; simpl; [done|].
  case_bool_decide as E.
  - intros [= <-]. exists nd. split; [left | done].
  - intros H. destruct (IH H) as (nd' & Hin & Hl).
    exists nd'. split; [by right | done].
Qed.

Lemma find_label_elem l ns k : find_label l ns = Some k -> l ∈ labels ns.
Proof.
  intros H. destruct (find_label l ns) eqn:E; [|done].
  destruct (decide (l ∈ labels ns)) as [|Hn]; [done|].
  apply find_label_None in Hn. congruence.
Qed.

Lemma find_label_app_None l ns ns' :
  find_label l ns = None -> find_label l (ns ++ ns') = find_label l ns'.
Proof.
  induction ns as [|[k nd] ns IH]; simpl; [done|].
  case_bool_decide; [done | auto].
Qed.

Lemma find_label_replace l ns k nd :
  find_label l ns = None -> label nd = l ->
  existsb (fun kv => kv.1 =? k) ns = true ->
  find_label l (List.map (fun kv => if kv.1 =? k then (k, nd) else kv) ns)
  = Some k.
Proof.
  intros Hn Hl. induction ns as [|[k' nd'] ns IH]; simpl in *; [done|].
  case_bool_decide as E; [done|].
  destruct (k' =? k) eqn:Ek; simpl.
  - intros _. by rewrite bool_decide_true.
  - intros H. rewrite bool_decide_false by done. auto.
Qed.

(** After lines 264-284 the first node that carries the label is the one
    whose id is returned. *)
Lemma insert_or_reuse_found l ns :
  find_label l (insert_or_reuse l ns).1 = Some (insert_or_reuse l ns).2.
Proof.
  unfold insert_or_reuse. destruct (find_label l ns) eqn:E; simpl; [done|].
  unfold dict_set. destruct (existsb _ ns) eqn:Ex.
  - by apply find_label_replace.
  - rewrite find_label_app_None by done. simpl. by rewrite bool_decide_true.
Qed.

Lemma insert_or_reuse_elem l ns kv :
  kv ∈ (insert_or_reuse l ns).1 -> kv ∈ ns \/ label kv.2 = l.
Proof.
  unfold insert_or_reuse. destruct (find_label l ns); simpl; [auto|].
  unfold dict_set. destruct (existsb _ ns).
  - rewrite list_elem_of_In, in_map_iff. intros ([k nd] & <- & Hin). simpl.
    destruct (k =? length ns); [by right | left; by apply list_elem_of_In].
  - rewrite elem_of_app, list_elem_of_singleton. intros [?| ->]; auto.
Qed.

Lemma has_edge_iff a b es :
  existsb (fun e => (source e =? a) && (target e =? b)) es = true
  <-> Edge a b ∈ es.
Proof.
  rewrite existsb_exists. split.
  - intros ([s t] & Hin & H). simpl in H.
    apply andb_true_iff in H as [->%Nat.eqb_eq ->%Nat.eqb_eq].
    by apply list_elem_of_In.
  - intros Hin. exists (Edge a b). split; [by apply list_elem_of_In|].
    simpl. by rewrite !Nat.eqb_refl.
Qed.

Lemma has_link_iff a b es :
  existsb (fun e =>
    (source e =? a) && (target e =? b) || (source e =? b) && (target e =? a)) es
  = true <-> Edge a b ∈ es \/ Edge b a ∈ es.
Proof.
  rewrite existsb_exists. split.
  - intros ([s t] & Hin & H). simpl in H. apply list_elem_of_In in Hin.
    apply orb_true_iff in H as [H|H];
      apply andb_true_iff in H as [->%Nat.eqb_eq ->%Nat.eqb_eq]; auto.
  - intros [Hin|Hin]; [exists (Edge a b) | exists (Edge b a)];
      (split; [by apply list_elem_of_In|]); simpl;
      rewrite !Nat.eqb_refl; by rewrite ?orb_true_r.
Qed.

(** What lines 287-305 leave in [edges]. *)
Lemma link_parent_found p ns node_id es parent_id :
  p <> [] -> find_label p ns = Some parent_id ->
  link_parent (Some p) ns node_id es =
  if bool_decide (Edge parent_id node_id ∈ es) then es
  else es ++ [Edge parent_id node_id].
Proof.
  intros Hp Hf. unfold link_parent. destruct p; [done|]. rewrite Hf.
  destruct (existsb _ es) eqn:E.
  - apply has_edge_iff in E. by rewrite bool_decide_true.
  - rewrite bool_decide_false; [done|]. intros H%has_edge_iff. congruence.
Qed.

Lemma link_parent_missing p ns node_id es :
  find_label p ns = None -> link_parent (Some p) ns node_id es = es.
Proof. intros Hf. unfold link_parent. destruct p; [done|]. by rewrite Hf. Qed.

Lemma link_parent_NoDup parent ns node_id es :
  NoDup es -> NoDup (link_parent parent ns node_id es).
Proof.
  intros Hes. unfold link_parent.
  destruct parent as [[|c p]|]; try done.
  destruct (find_label _ ns) as [parent_id|]; [|done].
  destruct (existsb _ es) eqn:E; [done|].
  apply NoDup_app. split; [done|]. split; [|apply NoDup_singleton].
  intros e He ->%list_elem_of_singleton.
  apply has_edge_iff in He. congruence.
Qed.

(** One turn of that loop appends nothing, or one edge between two nodes
    that no edge joined in either direction. *)
Lemma link_similar_cases concept parent ns node_id es similar :
  link_similar concept parent ns node_id es similar = es
  \/ exists similar_id,
       link_similar concept parent ns node_id es similar
         = es ++ [Edge node_id similar_id]
       /\ (Edge node_id similar_id ∉ es) /\ (Edge similar_id node_id ∉ es)
       /\ similarity_edge concept parent ns node_id (Edge node_id similar_id).
Proof.
  unfold link_similar.
  case_bool_decide as Hc; simpl; [by left|].
  destruct (differs_from similar parent) eqn:Hp; [|by left].
  destruct (find_label similar ns) as [similar_id|] eqn:Hf; [|by left].
  destruct (existsb _ es) eqn:E; [by left|].
  right. exists similar_id. split; [done|].
  assert (~ ((Edge node_id similar_id ∈ es) \/ (Edge similar_id node_id ∈ es)))
    as Hn.
  { intros H%has_link_iff. congruence. }
  split; [tauto|]. split; [tauto|]. split; [done|].
  exists similar. split; [done|]. split; [|done].
  unfold differs_from in Hp. destruct parent as [p|]; [|done].
  intros [= ->]. by rewrite bool_decide_true in Hp.
Qed.

Lemma link_similar_loop concept parent ns node_id es similar_concepts :
  exists added,
    foldl (link_similar concept parent ns node_id) es similar_concepts
      = es ++ added
    /\ Forall (similarity_edge concept parent ns node_id) added
    /\ (NoDup es -> NoDup (es ++ added)).
Proof.
  revert es. induction similar_concepts as [|s l IH]; intros es; simpl.
  - exists []. by rewrite app_nil_r.
  - destruct (link_similar_cases concept parent ns node_id es s)
      as [->|(sid & -> & Hn1 & Hn2 & Hse)]; [apply IH|].
    destruct (IH (es ++ [Edge node_id sid])) as (added & -> & Hall & Hnd).
    exists (Edge node_id sid :: added). rewrite <- app_assoc. simpl.
    split; [done|]. split; [by constructor|].
    intros Hes.
    replace (es ++ Edge node_id sid :: added)
      with ((es ++ [Edge node_id sid]) ++ added) by (by rewrite <- app_assoc).
    apply Hnd.
    apply NoDup_app. split; [done|]. split; [|apply NoDup_singleton].
    by intros e He ->%list_elem_of_singleton.
Qed.

(** The parts of the state after [add_concept]. *)
Lemma add_concept_nodes c parent st :
  nodes (add_concept c parent st).1
  = (insert_or_reuse (clean_concept c) (nodes st)).1.
Proof.
  unfold add_concept. by destruct (insert_or_reuse _ _).
Qed.

Lemma add_concept_id c parent st :
  concept_id (add_concept c parent st).2
  = (insert_or_reuse (clean_concept c) (nodes st)).2.
Proof.
  unfold add_concept. by destruct (insert_or_reuse _ _).
Qed.

Lemma add_concept_count c parent st :
  similar_connections (add_concept c parent st).2
  = length (find_existing_concepts (clean_concept c)
              (labels (nodes (add_concept c parent st).1))).
Proof.
  unfold add_concept. by destruct (insert_or_reuse _ _).
Qed.

Lemma add_concept_concepts c parent st :
  all_generated_concepts (add_concept c parent st).1
  = {[clean_concept c]} ∪ all_generated_concepts st.
Proof.
  unfold add_concept. by destruct (insert_or_reuse _ _).
Qed.

Lemma add_concept_edges c parent st :
  let concept := clean_concept c in
  let ns := (insert_or_reuse concept (nodes st)).1 in
  let node_id := (insert_or_reuse concept (nodes st)).2 in
  edges (add_concept c parent st).1
  = foldl (link_similar concept (clean_parent parent) ns node_id)
      (link_parent (clean_parent parent) ns node_id (edges st))
      (find_existing_concepts concept (labels ns)).
Proof.
  unfold add_concept. by destruct (insert_or_reuse _ _).
Qed.

End GraphStore.

(** ** Ingestion *)

(** C3. Two calls of [add_concept] in a row with the same raw concept and
    no parent return the same node id, which is the id of the first node
    carrying the normalised label, and the second call leaves the nodes as
    the first call left them, so their number does not grow. *)
Theorem add_concept_twice_same_node (st : store) (c : list N) :
  let first := add_concept c None st in
  let second := add_concept c None first.1 in
  concept_id second.2 = concept_id first.2
  /\ find_label (clean_concept c) (nodes first.1) = Some (concept_id first.2)
  /\ nodes second.1 = nodes first.1
  /\ length (nodes second.1) = length (nodes first.1).
Proof.
  cbv zeta.
  pose proof (insert_or_reuse_found (clean_concept c) (nodes st)) as Hf.
  rewrite <- add_concept_nodes with (parent := None) in Hf.
  rewrite <- add_concept_id with (parent := None) in Hf.
  set (first := add_concept c None st) in *.
  assert (insert_or_reuse (clean_concept c) (nodes first.1)
          = (nodes first.1, concept_id first.2)) as Hr.
  { unfold insert_or_reuse. by rewrite Hf. }
  rewrite add_concept_id, add_concept_nodes, Hr. done.
Qed.

Lemma fresh_key (ns : list (nat * node)) :
  ns.*1 = seq 0 (length ns) ->
  existsb (fun kv => kv.1 =? length ns) ns = false.
Proof.
  intros Hk. destruct (existsb _ ns) eqn:E; [|done].
  apply existsb_exists in E as ([k nd] & Hin & Hk'). simpl in Hk'.
  apply Nat.eqb_eq in Hk'. subst k.
  assert (length ns ∈ ns.*1) as H.
  { apply list_elem_of_fmap. exists (length ns, nd).
    split; [done | by apply list_elem_of_In]. }
  rewrite Hk in H. apply list_elem_of_In, in_seq in H. lia.
Qed.

Lemma insert_or_reuse_inv (l : list N) (ns : list (nat * node)) :
  ns.*1 = seq 0 (length ns) -> NoDup (labels ns) ->
  let ns' := (insert_or_reuse l ns).1 in
  ns'.*1 = seq 0 (length ns') /\ NoDup (labels ns').
Proof.
  intros Hk Hl. unfold insert_or_reuse.
  destruct (find_label l ns) eqn:E; simpl; [done|].
  unfold dict_set. rewrite fresh_key by done.
  rewrite fmap_app, length_app, Hk. simpl. rewrite Nat.add_1_r, seq_S.
  split; [done|]. unfold labels. rewrite map_app. simpl.
  apply NoDup_app. split; [done|]. split; [|apply NoDup_singleton].
  intros l' Hin ->%list_elem_of_singleton. by apply find_label_None in E.
Qed.

Lemma add_concept_inv (c : list N) (parent : option (list N)) (st : store) :
  store_inv st -> store_inv (add_concept c parent st).1.
Proof.
  intros [Hk Hl He].
  destruct (insert_or_reuse_inv (clean_concept c) _ Hk Hl) as [Hk' Hl'].
  split.
  - by rewrite add_concept_nodes.
  - by rewrite add_concept_nodes.
  - rewrite add_concept_edges. cbv zeta.
    match goal with
    | |- NoDup (foldl (link_similar ?co ?pa ?ns ?ni) ?es ?sims) =>
        destruct (link_similar_loop co pa ns ni es sims) as (added & -> & _ & Hnd)
    end.
    by apply Hnd, link_parent_NoDup.
Qed.

Lemma run_inv (ops : list op) (st : store) :
  store_inv st -> store_inv (run ops st).
Proof.
  revert st. induction ops as [|o ops IH]; intros st Hst; [done|].
  apply IH. destruct o as [c parent|]; simpl.
  - by apply add_concept_inv.
  - split; simpl; [done | apply NoDup_nil_2 | apply NoDup_nil_2].
Qed.


(** One turn of the similarity loop, with the label it handles. *)
Lemma link_similar_turn concept parent ns node_id es similar :
  link_similar concept parent ns node_id es similar = es
  \/ exists similar_id,
       link_similar concept parent ns node_id es similar
         = es ++ [Edge node_id similar_id]
       /\ (Edge node_id similar_id ∉ es) /\ (Edge similar_id node_id ∉ es)
       /\ similar <> concept /\ parent <> Some similar
       /\ find_label similar ns = Some similar_id.
Proof.
  unfold link_similar.
  case_bool_decide as Hc; simpl; [by left|].
  destruct (differs_from similar parent) eqn:Hp; [|by left].
  destruct (find_label similar ns) as [similar_id|] eqn:Hf; [|by left].
  destruct (existsb _ es) eqn:E; [by left|].
  right. exists similar_id. split; [done|].
  assert (~ ((Edge node_id similar_id ∈ es) \/ (Edge similar_id node_id ∈ es)))
    as Hn.
  { intros H%has_link_iff. congruence. }
  split; [tauto|]. split; [tauto|]. split; [done|]. split; [|done].
  unfold differs_from in Hp. destruct parent as [p|]; [|done].
  intros [= ->]. by rewrite bool_decide_true in Hp.
Qed.

(** The whole loop: what it appends is fresh, edge after edge, and leads to
    labels of the list it runs over. *)
Lemma link_similar_links concept parent ns node_id es similar_concepts :
  exists added,
    foldl (link_similar concept parent ns node_id) es similar_concepts
      = es ++ added
    /\ fresh_links es added
    /\ Forall (fun e =>
         source e = node_id /\
         exists similar,
           similar ∈ similar_concepts /\ similar <> concept
           /\ parent <> Some similar
           /\ find_label similar ns = Some (target e)) added.
Proof.
  revert es. induction similar_concepts as [|s l IH]; intros es; simpl.
  - exists []. by rewrite app_nil_r.
  - destruct (link_similar_turn concept parent ns node_id es s)
      as [->|(sid & -> & Hn1 & Hn2 & Hc & Hp & Hf)].
    + destruct (IH es) as (added & -> & Hfresh & Hall).
      exists added. split; [done|]. split; [done|].
      eapply Forall_impl; [done|]. intros e (? & similar & ? & ?).
      split; [done|]. exists similar. split; [by right | done].
    + destruct (IH (es ++ [Edge node_id sid])) as (added & -> & Hfresh & Hall).
      exists (Edge node_id sid :: added). rewrite <- app_assoc.
      split; [done|]. split; [done|]. constructor.
      * split; [done|]. exists s. split; [by left | done].
      * eapply Forall_impl; [done|]. intros e (? & similar & ? & ?).
        split; [done|]. exists similar. split; [by right | done].
Qed.

(** The edges of the store after [add_concept]: the old ones, what the
    parent block appends, what the similarity loop appends. *)
Lemma add_concept_appends (c : list N) (parent : option (list N)) (st : store) :
  let st' := (add_concept c parent st).1 in
  let node_id := concept_id (add_concept c parent st).2 in
  exists similar_edges,
    edges st'
      = link_parent (clean_parent parent) (nodes st') node_id (edges st)
        ++ similar_edges
    /\ fresh_links
         (link_parent (clean_parent parent) (nodes st') node_id (edges st))
         similar_edges
    /\ Forall (similarity_link (clean_concept c) (clean_parent parent)
                 (nodes st') node_id) similar_edges.
Proof.
  cbv zeta. rewrite add_concept_nodes, add_concept_id, add_concept_edges.
  cbv zeta.
  set (ns := (insert_or_reuse (clean_concept c) (nodes st)).1).
  set (node_id := (insert_or_reuse (clean_concept c) (nodes st)).2).
  destruct (link_similar_links (clean_concept c) (clean_parent parent) ns
              node_id
              (link_parent (clean_parent parent) ns node_id (edges st))
              (find_existing_concepts (clean_concept c) (labels ns)))
    as (added & -> & Hfresh & Hall).
  exists added. split; [done|]. split; [done|].
  eapply Forall_impl; [done|].
  intros e (Hs & similar & Hin & Hc & Hp & Hf). split; [done|].
  exists similar. rewrite find_existing_concepts_filter in Hin.
  apply list_elem_of_In, filter_In in Hin as [Hin Hconn].
  split; [by apply list_elem_of_In|]. done.
Qed.

(** C4. In every store reached from a graph without nodes and edges by
    [add_concept] and [reset_graph] calls, no two nodes carry the same
    label and no two edges have the same source and target; and a further
    [add_concept] call appends, after the edges of the parent block, only
    similarity edges, each between two nodes that no edge present at that
    moment joins in either direction. *)
Theorem reachable_store_has_no_duplicates (ops : list op)
    (concepts : gset (list N)) :
  let st := run ops (empty_graph concepts) in
  NoDup (labels (nodes st))
  /\ NoDup (edges st)
  /\ forall c parent,
       let st' := (add_concept c parent st).1 in
       let node_id := concept_id (add_concept c parent st).2 in
       exists parent_edges similar_edges,
         edges st' = edges st ++ parent_edges ++ similar_edges
         /\ edges st ++ parent_edges
            = link_parent (clean_parent parent) (nodes st') node_id (edges st)
         /\ (parent_edges = []
             \/ exists parent_id,
                  parent_edges = [Edge parent_id node_id]
                  /\ (Edge parent_id node_id ∉ edges st))
         /\ fresh_links (edges st ++ parent_edges) similar_edges
         /\ Forall (similarity_link (clean_concept c) (clean_parent parent)
                      (nodes st') node_id) similar_edges.
Proof.
  cbv zeta.
  destruct (run_inv ops (empty_graph concepts)) as [_ Hl He].
  { split; simpl; [done | apply NoDup_nil_2 | apply NoDup_nil_2]. }
  split; [done|]. split; [done|].
  intros c parent.
  set (st := run ops (empty_graph concepts)) in *.
  destruct (add_concept_appends c parent st) as (similar_edges & H1 & H2 & H3).
  set (ns := nodes (add_concept c parent st).1) in *.
  set (node_id := concept_id (add_concept c parent st).2) in *.
  assert (exists parent_edges,
    link_parent (clean_parent parent) ns node_id (edges st)
      = edges st ++ parent_edges
    /\ (parent_edges = []
        \/ exists parent_id,
             parent_edges = [Edge parent_id node_id]
             /\ (Edge parent_id node_id ∉ edges st)))
    as (parent_edges & Hp & Hcases).
  { unfold link_parent. destruct (clean_parent parent) as [[|a p]|].
    - exists []. by rewrite app_nil_r; auto.
    - destruct (find_label (a :: p) ns) as [parent_id|].
      + destruct (existsb _ (edges st)) eqn:E.
        * exists []. by rewrite app_nil_r; auto.
        * exists [Edge parent_id node_id]. split; [done|]. right.
          exists parent_id. split; [done|]. intros H%has_edge_iff. congruence.
      + exists []. by rewrite app_nil_r; auto.
    - exists []. by rewrite app_nil_r; auto. }
  exists parent_edges, similar_edges. rewrite H1, Hp in *.
  rewrite <- app_assoc. done.
Qed.


(** C8, as the code has it.  With a parent given, the call returns the id
    of the concept's node, and every node of the new store was there before
    or carries the concept's label.  The new edge list is the old one,
    followed by the edge from the parent's node to the concept's node when
    the normalised parent is not empty, a node carries it and that edge was
    absent, followed by similarity edges.  When no node carries the parent's
    label, or when the normalised parent is the empty string (the guard
    [if parent:]), only similarity edges are appended. *)
Theorem add_concept_parent_edge (st : store) (c p : list N) :
  let concept := clean_concept c in
  let parent := clean_concept p in
  let st' := (add_concept c (Some p) st).1 in
  let node_id := concept_id (add_concept c (Some p) st).2 in
  find_label concept (nodes st') = Some node_id
  /\ (forall kv, kv ∈ nodes st' -> kv ∈ nodes st \/ label kv.2 = concept)
  /\ exists similar_edges,
       Forall (similarity_link concept (Some parent) (nodes st') node_id)
         similar_edges
       /\ edges st' =
          match find_label parent (nodes st') with
          | Some parent_id =>
              if bool_decide (parent = []) then edges st
              else if bool_decide (Edge parent_id node_id ∈ edges st)
              then edges st
              else edges st ++ [Edge parent_id node_id]
          | None => edges st
          end ++ similar_edges.
Proof.
  cbv zeta.
  assert (clean_parent (Some p) = Some (clean_concept p)) as Hp.
  { by destruct p. }
  destruct (add_concept_appends c (Some p) st) as (similar_edges & H1 & _ & H3).
  rewrite Hp in H1, H3.
  split; [rewrite add_concept_nodes, add_concept_id; apply insert_or_reuse_found|].
  split; [rewrite add_concept_nodes; apply insert_or_reuse_elem|].
  exists similar_edges. split; [done|]. rewrite H1. f_equal.
  destruct (decide (clean_concept p = [])) as [E|E].
  - rewrite E. unfold link_parent.
    destruct (find_label [] _); [by rewrite bool_decide_true | done].
  - destruct (find_label (clean_concept p) _) as [parent_id|] eqn:Hf.
    + rewrite bool_decide_false by done. by apply link_parent_found.
    + by apply link_parent_missing.
Qed.

(** C9. [reset_graph] empties the nodes and the edges and keeps the set of
    concepts: the graph read back is empty, and every label that an earlier
    [add_concept] put into the set is still listed. *)
Theorem reset_graph_keeps_concepts (st : store) :
  nodes (reset_graph st) = []
  /\ edges (reset_graph st) = []
  /\ get_graph (reset_graph st) = ([], [])
  /\ all_generated_concepts (reset_graph st) = all_generated_concepts st
  /\ get_all_concepts (reset_graph st) = get_all_concepts st
  /\ forall before c parent after,
       clean_concept c ∈
         get_all_concepts
           (reset_graph (run (before ++ Ingest c parent :: after) st)).
Proof.
  repeat (split; [done|]).
  intros before c parent after. unfold get_all_concepts.
  apply elem_of_elements. simpl.
  unfold run. rewrite foldl_app. simpl.
  set (st1 := foldl step st before).
  assert (forall ops s, all_generated_concepts s ⊆
            all_generated_concepts (foldl step s ops)) as Hmono.
  { induction ops as [|o ops IH]; intros s; simpl; [done|].
    etrans; [|apply IH]. destruct o; simpl; [|done].
    rewrite add_concept_concepts. set_solver. }
  apply Hmono. rewrite add_concept_concepts. set_solver.
Qed.

(** C10. When the normalised concept is not empty, the labels scanned by
    [find_existing_concepts] are those of the store after the concept's node
    is in place, the scan returns the concept's own label among its
    results, and [similar_connections] is at least 1; on a first call into
    an empty graph it is 1 although no edge is appended. *)
Theorem add_concept_counts_own_label (st : store) (c : list N)
    (parent : option (list N)) :
  clean_concept c <> [] ->
  let concept := clean_concept c in
  let st' := (add_concept c parent st).1 in
  let similar_concepts := find_existing_concepts concept (labels (nodes st')) in
  concept ∈ similar_concepts
  /\ similar_connections (add_concept c parent st).2 = length similar_concepts
  /\ 1 <= similar_connections (add_concept c parent st).2
  /\ similar_connections (add_concept (lit "Perro") None (empty_graph ∅)).2 = 1
  /\ edges (add_concept (lit "Perro") None (empty_graph ∅)).1 = [].
Proof.
  intros Hc. cbv zeta.
  assert (clean_concept c ∈ find_existing_concepts (clean_concept c)
            (labels (nodes (add_concept c parent st).1))) as Hin.
  { rewrite find_existing_concepts_filter.
    apply list_elem_of_In, filter_In. split.
    - apply list_elem_of_In. rewrite add_concept_nodes.
      eapply find_label_elem, insert_or_reuse_found.
    - by apply is_connection_self. }
  split; [done|]. split; [apply add_concept_count|]. split.
  - rewrite add_concept_count.
    destruct (find_existing_concepts _ _); [by apply elem_of_nil in Hin|].
    simpl. lia.
  - by vm_compute.
Qed.

Lemma add_concept_counts_own_label_witness :
  clean_concept (lit "Perro") <> []
  /\ 1 <= similar_connections
            (add_concept (lit "Perro") (Some (lit "Animal")) (empty_graph ∅)).2.
Proof.
  split; [done|].
  apply (add_concept_counts_own_label (empty_graph ∅) (lit "Perro")
           (Some (lit "Animal"))).
  done.
Defined.

(** C8, as stated, fails when the parent normalises to the empty string:
    node 0 carries the empty label, the call names a parent that normalises
    to it, no edge from node 0 to node 1 exists, and none is appended. *)
Lemma add_concept_parent_edge_counterexample :
  let st := (add_concept [] None (empty_graph ∅)).1 in
  let st' := (add_concept (lit "x") (Some (lit "!!")) st).1 in
  let node_id := concept_id (add_concept (lit "x") (Some (lit "!!")) st).2 in
  node_id = 1
  /\ find_label (clean_concept (lit "!!")) (nodes st') = Some 0
  /\ (Edge 0 node_id ∉ edges st)
  /\ edges st' = []
  /\ edges st' <> edges st ++ [Edge 0 node_id].
Proof.
  cbv zeta. split; [by vm_compute|]. split; [by vm_compute|].
  split; [apply not_elem_of_nil|]. split; by vm_compute.
Qed.

(** ** The normaliser *)

Lemma clean_concept_pipeline (concept : list N) :
  clean_concept concept = strip (sub_unwanted (capitalize (collapsed concept))).
Proof. by destruct concept. Qed.

(** [str.capitalize] lower-cases everything after the first character. *)
Lemma capitalize_tail (c : N) (rest : list N) :
  capitalize (c :: rest) = py_title c ++ List.map py_lower rest.
Proof. done. Qed.


(** C7, as the code has it.  The empty string and "hello!!" go to "" and
    "Hello"; in "  3) café  " the marker "3)" is not at position 0, so it is
    not stripped and the result is "3 café"; without the leading blanks the
    result is "Café". *)
Theorem clean_concept_test_vectors :
  clean_concept [] = []
  /\ clean_concept (lit "hello!!") = lit "Hello"
  /\ clean_concept (lit "  3) caf" ++ [e_acute] ++ lit "  ")
     = lit "3 caf" ++ [e_acute]
  /\ clean_concept (lit "3) caf" ++ [e_acute] ++ lit "  ")
     = lit "Caf" ++ [e_acute].
Proof. by vm_compute. Qed.

(** C7, as stated, fails on its second vector. *)
Lemma clean_concept_test_vectors_counterexample :
  clean_concept (lit "  3) caf" ++ [e_acute] ++ lit "  ")
  <> lit "Caf" ++ [e_acute].
Proof. by vm_compute. Qed.

(** ** Facts about the Unicode tables *)

Lemma below_table_end (P : N -> Prop) `{!forall c, Decision (P c)} :
  bool_decide (Forall P (N.of_nat <$> seq 0 1024)) = true ->
  forall c, (c < 1024)%N -> P c.
Proof.
  intros HF%bool_decide_eq_true c Hc.
  rewrite Forall_forall in HF. apply HF.
  apply list_elem_of_fmap. exists (N.to_nat c).
  split; [by rewrite N2Nat.id|]. apply list_elem_of_In, in_seq. lia.
Qed.

Ltac compare_all :=
  repeat (match goal with
          | |- context [N.leb ?a ?b] => destruct (N.leb_spec a b); try lia
          | |- context [N.eqb ?a ?b] => destruct (N.eqb_spec a b); try lia
          end; simpl).

Lemma py_isword_above c : (1024 <= c)%N -> py_isword c = false.
Proof. intros H. unfold py_isword, in_range. by compare_all. Qed.

Lemma py_isspace_above c :
  (1024 <= c)%N -> py_isspace c = true -> is_marker c = false /\ c <> 32%N.
Proof.
  intros H. unfold py_isspace, is_marker, py_isdecimal, in_range.
  by compare_all.
Qed.

Lemma py_lower_above c : (1024 <= c)%N -> py_lower c = c.
Proof. intros H. unfold py_lower, in_range. by compare_all. Qed.

Lemma py_title_above c : (1024 <= c)%N -> py_title c = [c].
Proof. intros H. unfold py_title, in_range. by compare_all. Qed.

Ltac by_tables c :=
  destruct (N.lt_ge_cases c 1024) as [Hc|Hc];
    [revert c Hc;
     match goal with |- forall c, _ -> @?P c => apply (below_table_end P) end;
     by vm_compute
    |unfold letter_or_blank, letter_or_space, letterish;
     repeat (progress
               (rewrite ?(py_title_above c), ?(py_lower_above c),
                  ?(py_isword_above c) by done);
             simpl);
     try (apply bool_decide_eq_true)].

Lemma py_isspace_lower c : py_isspace (py_lower c) = py_isspace c.
Proof. by by_tables c. Qed.

Lemma py_lower_idemp c : py_lower (py_lower c) = py_lower c.
Proof. by by_tables c. Qed.

Lemma letter_or_blank_lower c :
  letter_or_blank c = true -> letter_or_blank (py_lower c) = true.
Proof. by by_tables c. Qed.

Lemma letterish_title c :
  letterish c = true -> forallb letterish (py_title c) = true.
Proof. by by_tables c. Qed.

Lemma py_title_fixed_bool c :
  match py_title c with
  | h :: t => bool_decide (py_title h = [h] /\ List.map py_lower t = t)
  | [] => false
  end = true.
Proof. by by_tables c. Qed.

(** The title-case form of a character starts with a character that is its
    own title-case form and goes on in lower case. *)
Lemma py_title_fixed c :
  exists h t, py_title c = h :: t /\ py_title h = [h] /\ List.map py_lower t = t.
Proof.
  pose proof (py_title_fixed_bool c) as H.
  destruct (py_title c) as [|h t]; [done|].
  apply bool_decide_eq_true in H. by exists h, t.
Qed.

Lemma letterish_not_marker c : letterish c = true -> is_marker c = false.
Proof. by by_tables c. Qed.

Lemma letterish_not_space c : letterish c = true -> py_isspace c = false.
Proof. by by_tables c. Qed.

Lemma letter_or_blank_wanted c : letter_or_blank c = true -> is_wanted c = true.
Proof.
  unfold letter_or_blank, letterish, is_wanted.
  intros [[H _]%andb_true_iff| ->%N.eqb_eq]%orb_true_iff; [by rewrite H|done].
Qed.

(** ** Stripping and collapsing *)

Section Normaliser.

Implicit Types s t : list N.

Lemma lstrip_length s : length (lstrip s) <= length s.
Proof. induction s as [|c s IH]; simpl; [done|]. destruct (py_isspace c); simpl; lia. Qed.

Lemma lstrip_idemp s : lstrip (lstrip s) = lstrip s.
Proof.
  induction s as [|c s IH]; simpl; [done|].
  destruct (py_isspace c) eqn:E; [done|]. simpl. by rewrite E.
Qed.

Lemma lstrip_fixed_head c s : lstrip (c :: s) = c :: s -> py_isspace c = false.
Proof.
  simpl. destruct (py_isspace c); [|done]. intros H.
  pose proof (lstrip_length s) as Hl. rewrite H in Hl. simpl in Hl. lia.
Qed.

Lemma lstrip_blank s : forallb py_isspace s = true -> lstrip s = [].
Proof.
  induction s as [|c s IH]; simpl; [done|].
  intros [-> H]%andb_true_iff. auto.
Qed.

Lemma lstrip_app s t :
  lstrip (s ++ t) = if forallb py_isspace s then lstrip t else lstrip s ++ t.
Proof.
  induction s as [|c s IH]; simpl; [done|]. by destruct (py_isspace c).
Qed.

Lemma forallb_rev (f : N -> bool) s : forallb f (rev s) = forallb f s.
Proof.
  induction s as [|c s IH]; simpl; [done|].
  rewrite forallb_app, IH. simpl. rewrite andb_true_r. apply andb_comm.
Qed.

(** [rstrip] read from the left. *)
Lemma rstrip_cons c s :
  rstrip (c :: s) = if forallb py_isspace (c :: s) then [] else c :: rstrip s.
Proof.
  unfold rstrip. simpl rev. rewrite lstrip_app, forallb_rev. simpl forallb.
  destruct (forallb py_isspace s) eqn:E.
  - rewrite andb_true_r. simpl.
    destruct (py_isspace c); [done|]. simpl.
    rewrite lstrip_blank by (by rewrite forallb_rev). done.
  - rewrite andb_false_r. by rewrite rev_app_distr.
Qed.

Lemma rstrip_length s : length (rstrip s) <= length s.
Proof.
  unfold rstrip. rewrite length_rev. etrans; [apply lstrip_length|].
  by rewrite length_rev.
Qed.

Lemma rstrip_idemp s : rstrip (rstrip s) = rstrip s.
Proof. unfold rstrip. by rewrite rev_involutive, lstrip_idemp. Qed.

Lemma rstrip_snoc s c : py_isspace c = false -> rstrip (s ++ [c]) = s ++ [c].
Proof.
  intros H. unfold rstrip. rewrite rev_app_distr. simpl. rewrite H.
  simpl. by rewrite rev_involutive.
Qed.

Lemma rstrip_fixed_last s c :
  rstrip (s ++ [c]) = s ++ [c] -> py_isspace c = false.
Proof.
  intros H. destruct (py_isspace c) eqn:E; [|done].
  unfold rstrip in H. rewrite rev_app_distr in H. simpl in H. rewrite E in H.
  pose proof (rstrip_length s) as Hl. unfold rstrip in Hl. rewrite H in Hl.
  rewrite length_app in Hl. simpl in Hl. lia.
Qed.

Lemma lstrip_rstrip_fixed s : lstrip s = s -> lstrip (rstrip s) = rstrip s.
Proof.
  destruct s as [|c s]; [done|]. intros H%lstrip_fixed_head.
  rewrite rstrip_cons. simpl forallb. rewrite H. simpl. by rewrite H.
Qed.

Lemma strip_fixed s : lstrip s = s -> rstrip s = s -> strip s = s.
Proof. unfold strip. by intros -> ->. Qed.

Lemma sub_spaces_length b s : length (sub_spaces b s) <= length s.
Proof.
  revert b. induction s as [|c s IH]; intros b; simpl; [done|].
  destruct (py_isspace c).
  - destruct b; simpl; [specialize (IH true); lia | specialize (IH true); lia].
  - simpl. specialize (IH false). lia.
Qed.

Lemma sub_spaces_idemp s b b' :
  (b' = true -> b = true) ->
  sub_spaces b' (sub_spaces b s) = sub_spaces b s.
Proof.
  revert b b'. induction s as [|c s IH]; intros b b' Hb; simpl; [done|].
  destruct (py_isspace c) eqn:E.
  - destruct b.
    + by apply IH.
    + destruct b'; [by specialize (Hb eq_refl)|].
      simpl. change (py_isspace 32) with true. cbv iota. f_equal. by apply IH.
  - simpl. rewrite E. f_equal. by apply IH.
Qed.

Lemma fixed_space_head b c s :
  py_isspace c = true -> fixed b (c :: s) -> b = false /\ c = 32%N /\ fixed true s.
Proof.
  unfold fixed. simpl. intros -> H. destruct b.
  - pose proof (sub_spaces_length true s) as Hl. rewrite H in Hl.
    simpl in Hl. lia.
  - by injection H as <- H.
Qed.

Lemma fixed_letter_head b c s :
  py_isspace c = false -> fixed b (c :: s) <-> fixed false s.
Proof.
  unfold fixed. simpl. intros ->. split; [by intros [= H] | by intros ->].
Qed.

Lemma fixed_true_head s : fixed true s -> lstrip s = s /\ fixed false s.
Proof.
  destruct s as [|c s]; [done|]. intros H.
  destruct (py_isspace c) eqn:E.
  - by destruct (fixed_space_head _ _ _ E H) as [? _].
  - split; [simpl; by rewrite E|].
    apply fixed_letter_head; [done|]. by apply fixed_letter_head in H.
Qed.

Lemma fixed_lstrip s : fixed false s -> fixed false (lstrip s).
Proof.
  destruct s as [|c s]; [done|]. intros H. simpl.
  destruct (py_isspace c) eqn:E; [|done].
  destruct (fixed_space_head _ _ _ E H) as (_ & _ & H').
  destruct (fixed_true_head _ H') as [-> ?]. done.
Qed.

Lemma fixed_rstrip s b : fixed b s -> fixed b (rstrip s).
Proof.
  revert b. induction s as [|c s IH]; intros b H; [done|].
  rewrite rstrip_cons. destruct (forallb _ _); [done|].
  destruct (py_isspace c) eqn:E.
  - destruct (fixed_space_head _ _ _ E H) as (-> & -> & H').
    unfold fixed. simpl. f_equal. by apply IH.
  - apply fixed_letter_head; [done|]. apply IH.
    by apply fixed_letter_head in H.
Qed.

Lemma sub_spaces_lower b s :
  sub_spaces b (lower s) = lower (sub_spaces b s).
Proof.
  revert b. induction s as [|c s IH]; intros b; simpl; [done|].
  rewrite py_isspace_lower. destruct (py_isspace c).
  - destruct b; simpl; by rewrite IH.
  - simpl. by rewrite IH.
Qed.

Lemma sub_spaces_letters b h t s :
  forallb letterish (h :: t) = true ->
  sub_spaces b ((h :: t) ++ s) = (h :: t) ++ sub_spaces false s.
Proof.
  revert b h. induction t as [|c t IH]; intros b h; simpl.
  - rewrite andb_true_r. intros H%letterish_not_space. by rewrite H.
  - intros [H1%letterish_not_space H2]%andb_true_iff. rewrite H1. f_equal.
    by apply (IH false c).
Qed.

(** Which characters the steps let through. *)
Lemma Forall_lstrip (P : N -> Prop) s : Forall P s -> Forall P (lstrip s).
Proof.
  induction 1 as [|c s Hc Hs IH]; simpl; [done|].
  destruct (py_isspace c); [done | by constructor].
Qed.

Lemma Forall_rstrip (P : N -> Prop) s : Forall P s -> Forall P (rstrip s).
Proof. intros H. unfold rstrip. by apply Forall_rev, Forall_lstrip, Forall_rev. Qed.

Lemma Forall_skip_markers (P : N -> Prop) s :
  Forall P s -> Forall P (skip_markers s).
Proof.
  induction 1 as [|c s Hc Hs IH]; simpl; [done|].
  destruct (is_marker c); [done | by constructor].
Qed.

Lemma Forall_sub_leading_markers (P : N -> Prop) s :
  Forall P s -> Forall P (sub_leading_markers s).
Proof.
  intros H. destruct s as [|c s]; [done|]. simpl.
  destruct (is_marker c); [|done].
  apply Forall_lstrip. inversion H; subst. by apply Forall_skip_markers.
Qed.

Lemma Forall_sub_spaces b s :
  Forall (fun c => letter_or_space c = true) s ->
  Forall (fun c => letter_or_blank c = true) (sub_spaces b s).
Proof.
  intros H. revert b. induction H as [|c s Hc Hs IH]; intros b; simpl; [done|].
  destruct (py_isspace c) eqn:E.
  - destruct b; [done|]. by constructor.
  - constructor; [|done]. unfold letter_or_space, letter_or_blank in *.
    rewrite E, orb_false_r in Hc. by rewrite Hc.
Qed.

Lemma tidy_collapsed s :
  Forall (fun c => letter_or_space c = true) s -> tidy (collapsed s).
Proof.
  intros H. unfold collapsed, strip.
  set (v := sub_spaces false (sub_leading_markers s)).
  assert (Forall (fun c => letter_or_blank c = true) v) as Hv
    by (by apply Forall_sub_spaces, Forall_sub_leading_markers).
  assert (fixed false v) as Hf by (by apply sub_spaces_idemp).
  repeat split.
  - by apply Forall_rstrip, Forall_lstrip.
  - by apply fixed_rstrip, fixed_lstrip.
  - apply lstrip_rstrip_fixed, lstrip_idemp.
  - apply rstrip_idemp.
Qed.

Lemma tidy_head c s : tidy (c :: s) -> letterish c = true.
Proof.
  intros (Hall & _ & Hl%lstrip_fixed_head & _).
  inversion Hall as [|? ? Hc _]; subst. unfold letter_or_blank in Hc.
  apply orb_true_iff in Hc as [? | ->%N.eqb_eq]; done.
Qed.

Lemma capitalize_idemp s : capitalize (capitalize s) = capitalize s.
Proof.
  destruct s as [|c s]; [done|]. simpl.
  destruct (py_title_fixed c) as (h & t & -> & Hh & Ht). simpl.
  rewrite Hh. unfold lower. rewrite map_app, Ht, map_map. simpl. f_equal. f_equal.
  apply map_ext. intros a. apply py_lower_idemp.
Qed.

Lemma tidy_capitalize s : tidy s -> tidy (capitalize s).
Proof.
  destruct s as [|c s]; [done|]. intros Ht.
  pose proof (tidy_head _ _ Ht) as Hc.
  destruct Ht as (Hall & Hf & Hl & Hr). simpl.
  pose proof (letterish_title c Hc) as Htitle.
  destruct (py_title c) as [|h t] eqn:Et;
    [destruct (py_title_fixed c) as (? & ? & E & _); congruence|].
  pose proof Htitle as Hh. simpl in Hh. apply andb_true_iff in Hh as [Hh _].
  inversion Hall as [|? ? _ Hs]; subst.
  apply fixed_letter_head in Hf; [|by apply letterish_not_space].
  repeat split.
  - apply Forall_app. split.
    + apply Forall_forall. intros a Ha.
      rewrite forallb_forall in Htitle. unfold letter_or_blank.
      rewrite Htitle; [done | by apply list_elem_of_In].
    + unfold lower. rewrite Forall_forall in Hs. apply Forall_forall.
      intros a (a' & -> & Ha)%list_elem_of_fmap.
      apply letter_or_blank_lower. by apply Hs.
  - unfold fixed. rewrite sub_spaces_letters by done.
    by rewrite sub_spaces_lower, Hf.
  - simpl. by rewrite (letterish_not_space h).
  - destruct s as [|c' s'] using rev_ind.
    + simpl. rewrite app_nil_r.
      destruct t as [|c' t'] using rev_ind.
      * apply (rstrip_snoc []). by apply letterish_not_space.
      * rewrite app_comm_cons. apply rstrip_snoc, letterish_not_space.
        rewrite forallb_forall in Htitle. apply Htitle.
        right. apply in_or_app. right. by left.
    + unfold lower. rewrite map_app. simpl. rewrite app_assoc.
      apply (rstrip_snoc (h :: t ++ List.map py_lower s')).
      rewrite py_isspace_lower.
      rewrite app_comm_cons in Hr. by apply rstrip_fixed_last in Hr.
Qed.

Lemma tidy_unwanted s : tidy s -> sub_unwanted s = s.
Proof.
  intros [Hall _]. unfold sub_unwanted.
  induction Hall as [|c s Hc Hs IH]; cbn [List.filter]; [done|].
  by rewrite (letter_or_blank_wanted c Hc), IH.
Qed.

(** On a tidy string only the capitalisation acts. *)
Lemma clean_concept_tidy s : tidy s -> clean_concept s = capitalize s.
Proof.
  intros Ht. rewrite clean_concept_pipeline.
  assert (collapsed s = s) as ->.
  { unfold collapsed. destruct Ht as (Hall & Hf & Hl & Hr).
    assert (sub_leading_markers s = s) as ->.
    { destruct s as [|c s]; [done|]. simpl.
      by rewrite (letterish_not_marker c (tidy_head c s (conj Hall (conj Hf (conj Hl Hr))))). }
    rewrite Hf. by apply strip_fixed. }
  pose proof (tidy_capitalize s Ht) as Hc.
  rewrite tidy_unwanted by done.
  destruct Hc as (_ & _ & Hl & Hr). by apply strip_fixed.
Qed.

End Normaliser.


(** On letters and whitespace nothing is removed: the normal form is the
    capitalised collapsed form. *)
Lemma clean_concept_letters (concept : list N) :
  forallb letter_or_space concept = true ->
  tidy (collapsed concept)
  /\ clean_concept concept = capitalize (collapsed concept).
Proof.
  intros H.
  assert (tidy (collapsed concept)) as Ht.
  { apply tidy_collapsed, Forall_forall. intros c Hc.
    rewrite forallb_forall in H. by apply H, list_elem_of_In. }
  split; [done|]. rewrite clean_concept_pipeline.
  pose proof (tidy_capitalize _ Ht) as Hc.
  rewrite tidy_unwanted by done.
  destruct Hc as (_ & _ & Hl & Hr). by apply strip_fixed.
Qed.

Lemma latin_letter_or_space_modelled (concept : list N) :
  forallb latin_letter_or_space concept = true ->
  forallb letter_or_space concept = true.
Proof.
  rewrite !forallb_forall. intros H c Hc. specialize (H c Hc).
  unfold latin_letter_or_space, letter_or_space in *.
  apply orb_true_iff in H as [[_ H]%andb_true_iff|H]; rewrite H;
    by rewrite ?orb_true_r.
Qed.

(** C5, as the code has it.  On an input made only of whitespace and of
    word characters of the Latin-1 range (U+0000-U+00FF) other than decimal
    digits, normalising twice gives what normalising once gives. *)
Theorem clean_concept_idempotent_on_words (concept : list N) :
  forallb latin_letter_or_space concept = true ->
  clean_concept (clean_concept concept) = clean_concept concept.
Proof.
  intros H%latin_letter_or_space_modelled.
  destruct (clean_concept_letters concept H) as [Ht ->].
  rewrite clean_concept_tidy by (by apply tidy_capitalize).
  apply capitalize_idemp.
Qed.

Lemma clean_concept_idempotent_on_words_witness :
  forallb latin_letter_or_space (lit "  hello   WORLD ") = true
  /\ clean_concept (clean_concept (lit "  hello   WORLD "))
     = clean_concept (lit "  hello   WORLD ").
Proof.
  split; [by vm_compute|].
  apply (clean_concept_idempotent_on_words (lit "  hello   WORLD ")).
  by vm_compute.
Defined.

(** C5, as stated, fails: "!a" is normalised to "a", and "a" to "A". *)
Lemma clean_concept_idempotent_counterexample :
  clean_concept (lit "!a") = lit "a"
  /\ clean_concept (clean_concept (lit "!a")) = lit "A"
  /\ clean_concept (clean_concept (lit "!a")) <> clean_concept (lit "!a").
Proof. by vm_compute. Qed.

(** * Further properties *)

(** ** Similarity *)

Lemma edit_zero (a b : list N) : edit a b 0 -> a = b.
Proof.
  intros H. remember 0 as n eqn:E.
  induction H; try done. f_equal. auto.
Qed.

Lemma levenshtein_sym (a b : list N) : levenshtein a b = levenshtein b a.
Proof.
  eapply is_dist_unique; [apply levenshtein_is_dist|]. split.
  - apply edit_sym, levenshtein_edit.
  - intros n H. by apply levenshtein_least, edit_sym.
Qed.

Lemma levenshtein_zero (a b : list N) : levenshtein a b = 0 <-> a = b.
Proof.
  split; [|intros ->; apply levenshtein_refl].
  intros H. apply edit_zero. rewrite <- H. apply levenshtein_edit.
Qed.

Lemma above_threshold_iff (q : Q) : above_threshold q = true <-> (3 # 5 < q)%Q.
Proof.
  unfold above_threshold. rewrite negb_true_iff.
  destruct (Qle_bool q (3 # 5)) eqn:E.
  - apply Qle_bool_iff in E. split; [done|]. intros H. by apply Qlt_not_le in H.
  - split; [intros _|done]. apply Qnot_le_lt. intros H%Qle_bool_iff. congruence.
Qed.

Lemma ratio_lt d m :
  0 < m -> (Qnat d / Qnat m < 2 # 5)%Q <-> 5 * d < 2 * m.
Proof.
  intros Hm. pose proof (Qnat_pos m Hm) as Hpos. split.
  - intros H. destruct (decide (5 * d < 2 * m)) as [|Hn]; [done|].
    exfalso. apply (Qlt_not_le _ _ H). apply Qle_shift_div_l; [done|].
    unfold Qle, Qnat. simpl. lia.
  - intros H. apply Qlt_shift_div_r; [done|].
    unfold Qlt, Qnat. simpl. lia.
Qed.

Lemma ratio_threshold d m :
  0 < m -> above_threshold (1 - Qnat d / Qnat m) = true <-> 5 * d < 2 * m.
Proof.
  intros Hm. rewrite above_threshold_iff, <- (ratio_lt d m Hm).
  split; intros H; lra.
Qed.

Lemma ratio_one d m : 0 < m -> (1 - Qnat d / Qnat m == 1)%Q -> d = 0.
Proof.
  intros Hm H. destruct d as [|d]; [done|]. exfalso.
  assert (0 < Qnat (S d) / Qnat m)%Q as Hq.
  { apply Qlt_shift_div_l; [by apply Qnat_pos|]. rewrite Qmult_0_l.
    apply Qnat_pos. lia. }
  lra.
Qed.

Lemma lower_length (s : list N) : length (lower s) = length s.
Proof. apply length_map. Qed.

Lemma above_threshold_count n : above_threshold (Qnat n) = negb (n =? 0).
Proof.
  destruct n as [|n]; [done|]. simpl. apply above_threshold_iff.
  unfold Qlt, Qnat. simpl. lia.
Qed.

Lemma contains_empty (s : list N) : contains s [] = true.
Proof. by destruct s. Qed.

(** X1. [calculate_similarity] gives the same value when its arguments are
    swapped, empty strings included. *)
Theorem calculate_similarity_sym (a b : list N) :
  calculate_similarity a b = calculate_similarity b a.
Proof.
  destruct (decide (a = [])) as [->|Ha], (decide (b = [])) as [->|Hb]; try done.
  - by destruct b.
  - by destruct a.
  - rewrite !calculate_similarity_nonempty by done.
    by rewrite levenshtein_sym, Nat.max_comm.
Qed.

(** X2. On non-empty strings the score is 1 exactly when the two strings
    are equal. *)
Theorem calculate_similarity_one_iff_equal (a b : list N) :
  a <> [] -> b <> [] ->
  (calculate_similarity a b == 1)%Q <-> a = b.
Proof.
  intros Ha Hb. split.
  - rewrite calculate_similarity_nonempty by done. intros H.
    apply levenshtein_zero. eapply ratio_one; [|done].
    destruct a; [done | simpl; lia].
  - intros <-. by apply calculate_similarity_same.
Qed.

Lemma calculate_similarity_one_iff_equal_witness :
  lit "gato" <> [] /\ lit "gata" <> []
  /\ ((calculate_similarity (lit "gato") (lit "gata") == 1)%Q
      <-> lit "gato" = lit "gata").
Proof.
  split; [done|]. split; [done|].
  by apply (calculate_similarity_one_iff_equal (lit "gato") (lit "gata")).
Defined.

(** X3. On non-empty strings the score passes the 0.6 threshold exactly
    when five times the Levenshtein distance is less than twice the larger
    length. *)
Theorem similarity_threshold_distance (a b : list N) :
  a <> [] -> b <> [] ->
  above_threshold (calculate_similarity a b) = true
  <-> 5 * levenshtein a b < 2 * (length a `max` length b).
Proof.
  intros Ha Hb. rewrite calculate_similarity_nonempty by done.
  apply ratio_threshold. destruct a; [done | simpl; lia].
Qed.

Lemma similarity_threshold_distance_witness :
  lit "perro" <> [] /\ lit "perros" <> []
  /\ (above_threshold (calculate_similarity (lit "perro") (lit "perros")) = true
      <-> 5 * levenshtein (lit "perro") (lit "perros") < 2 * (5 `max` 6)).
Proof.
  split; [done|]. split; [done|].
  by apply (similarity_threshold_distance (lit "perro") (lit "perros")).
Defined.

Lemma is_connection_empty (existing : list N) :
  is_connection [] existing = nonempty existing.
Proof.
  unfold is_connection. cbv zeta. rewrite contains_empty. simpl.
  change (calculate_similarity [] (lower existing))
    with (Qnat (length (lower existing))).
  rewrite above_threshold_count, lower_length. by destruct existing.
Qed.

(** X4. For the empty concept the scan returns every label that is not
    empty, in order; so a call whose concept normalises to the empty string
    reports as [similar_connections] the number of non-empty labels. *)
Theorem empty_concept_matches_every_label (st : store) (c : list N)
    (parent : option (list N)) (existing_concepts : list (list N)) :
  clean_concept c = [] ->
  find_existing_concepts [] existing_concepts
    = List.filter nonempty existing_concepts
  /\ similar_connections (add_concept c parent st).2
     = length (List.filter nonempty (labels (nodes (add_concept c parent st).1))).
Proof.
  intros Hc.
  assert (forall l, find_existing_concepts [] l = List.filter nonempty l) as H.
  { intros l. rewrite find_existing_concepts_filter. simpl.
    apply filter_ext. intros e. apply is_connection_empty. }
  split; [apply H|]. by rewrite add_concept_count, Hc, H.
Qed.

Lemma empty_concept_matches_every_label_witness :
  let st := (add_concept (lit "perro") None (empty_graph ∅)).1 in
  clean_concept (lit "!!") = []
  /\ similar_connections (add_concept (lit "!!") None st).2
     = length (List.filter nonempty
                 (labels (nodes (add_concept (lit "!!") None st).1))).
Proof.
  cbv zeta. split; [done|].
  by apply (empty_concept_matches_every_label
              (add_concept (lit "perro") None (empty_graph ∅)).1
              (lit "!!") None []).
Defined.

(** X5. An existing label that equals the new, non-empty concept up to case
    is always among the results of the scan. *)
Theorem find_existing_concepts_ignores_case (new_concept existing : list N)
    (existing_concepts : list (list N)) :
  new_concept <> [] ->
  lower existing = lower new_concept ->
  existing ∈ existing_concepts ->
  existing ∈ find_existing_concepts new_concept existing_concepts.
Proof.
  intros Hn Hl Hin. rewrite find_existing_concepts_filter.
  apply list_elem_of_In, filter_In. split; [by apply list_elem_of_In|].
  unfold is_connection. cbv zeta. rewrite Hl, contains_refl. simpl.
  apply above_threshold_one, calculate_similarity_same. by destruct new_concept.
Qed.

Lemma find_existing_concepts_ignores_case_witness :
  lit "Perro" <> [] /\ lower (lit "perro") = lower (lit "Perro")
  /\ lit "perro" ∈ find_existing_concepts (lit "Perro") [lit "Gato"; lit "perro"].
Proof.
  split; [done|]. split; [done|].
  apply (find_existing_concepts_ignores_case (lit "Perro") (lit "perro")
           [lit "Gato"; lit "perro"]); [done..|].
  apply list_elem_of_further, list_elem_of_here.
Defined.

(** ** The normaliser *)

Lemma space_not_marker c : py_isspace c = true -> is_marker c = false.
Proof.
  destruct (N.lt_ge_cases c 1024) as [Hc|Hc].
  - revert c Hc.
    apply (below_table_end (fun c => py_isspace c = true -> is_marker c = false)).
    by vm_compute.
  - intros H. by apply py_isspace_above.
Qed.

Lemma plain_space_lower c : plain_space c -> plain_space (py_lower c).
Proof. unfold plain_space. by by_tables c. Qed.

Lemma plain_space_title c :
  plain_space c -> forallb (fun c' => bool_decide (plain_space c')) (py_title c) = true.
Proof.
  unfold plain_space. by_tables c; [].
  intros H. rewrite bool_decide_true; done.
Qed.

Lemma no_space_title c :
  py_isspace c = false ->
  forallb (fun c' => negb (py_isspace c')) (py_title c) = true.
Proof. by_tables c; []. by intros ->. Qed.

Section Shape.

Implicit Types s t : list N.

Lemma strip_idemp s : strip (strip s) = strip s.
Proof.
  unfold strip. rewrite lstrip_rstrip_fixed by apply lstrip_idemp.
  apply rstrip_idemp.
Qed.

Lemma Forall_strip (P : N -> Prop) s : Forall P s -> Forall P (strip s).
Proof. intros H. by apply Forall_rstrip, Forall_lstrip. Qed.

Lemma Forall_sub_unwanted (P : N -> Prop) s :
  Forall P s -> Forall P (sub_unwanted s).
Proof.
  rewrite !Forall_forall. intros H c Hc. apply H.
  apply list_elem_of_In. apply list_elem_of_In in Hc.
  unfold sub_unwanted in Hc. by apply filter_In in Hc as [? _].
Qed.

Lemma sub_unwanted_wanted s : Forall (fun c => is_wanted c = true) (sub_unwanted s).
Proof.
  apply Forall_forall. intros c Hc. apply list_elem_of_In in Hc.
  unfold sub_unwanted in Hc. by apply filter_In in Hc as [_ ?].
Qed.

Lemma Forall_capitalize (P : N -> Prop) s :
  (forall c, P c -> Forall P (py_title c)) -> (forall c, P c -> P (py_lower c)) ->
  Forall P s -> Forall P (capitalize s).
Proof.
  intros Ht Hl H. destruct H as [|c s Hc Hs]; [done|]. simpl.
  apply Forall_app. split; [by apply Ht|].
  unfold lower. apply Forall_forall.
  intros a (a' & -> & Ha)%list_elem_of_fmap.
  rewrite Forall_forall in Hs. by apply Hl, Hs.
Qed.

Lemma sub_spaces_plain b s : Forall plain_space (sub_spaces b s).
Proof.
  revert b. induction s as [|c s IH]; intros b; simpl; [done|].
  destruct (py_isspace c) eqn:E.
  - destruct b; [done|]. by constructor.
  - constructor; [|done]. intros H. congruence.
Qed.

Lemma sub_spaces_no_space b s :
  Forall (fun c => py_isspace c = false) s ->
  Forall (fun c => py_isspace c = false) (sub_spaces b s).
Proof.
  intros H. revert b. induction H as [|c s Hc Hs IH]; intros b; simpl; [done|].
  rewrite Hc. by constructor.
Qed.

Lemma sub_spaces_blank s :
  forallb py_isspace s = true ->
  sub_spaces true s = [] /\ (s <> [] -> sub_spaces false s = [32%N]).
Proof.
  induction s as [|c s IH]; simpl; [done|].
  intros [-> H]%andb_true_iff. destruct (IH H) as [IH1 _].
  split; [done|]. intros _. by rewrite IH1.
Qed.

Lemma strip_blank s : forallb py_isspace s = true -> strip s = [].
Proof. intros H. unfold strip. by rewrite lstrip_blank. Qed.

Lemma skip_markers_app s t :
  forallb is_marker s = true -> skip_markers (s ++ t) = skip_markers t.
Proof.
  induction s as [|c s IH]; simpl; [done|].
  intros [-> H]%andb_true_iff. auto.
Qed.

Lemma clean_concept_no_space s :
  Forall (fun c => py_isspace c = false) s ->
  Forall (fun c => py_isspace c = false) (clean_concept s).
Proof.
  intros H. rewrite clean_concept_pipeline.
  apply Forall_strip, Forall_sub_unwanted, Forall_capitalize.
  - intros c Hc. apply Forall_forall. intros c' Hc'.
    pose proof (no_space_title c Hc) as Ht. rewrite forallb_forall in Ht.
    apply negb_true_iff, Ht. by apply list_elem_of_In.
  - intros c Hc. by rewrite py_isspace_lower.
  - by apply Forall_strip, sub_spaces_no_space, Forall_sub_leading_markers.
Qed.

End Shape.

(** *** Capitalisation *)

Lemma upper_letter_lower c : upper_letter (py_lower c) = false.
Proof.
  by_tables c; []. unfold upper_letter, in_range. by compare_all.
Qed.

Lemma upper_letter_title c :
  forallb (fun c' => negb (upper_letter c')) (drop 1 (py_title c)) = true.
Proof. by by_tables c. Qed.

Lemma py_title_word c :
  py_isword c = true ->
  match py_title c with
  | first :: _ =>
      py_isword first && negb (py_isspace first) && negb (lower_letter first)
  | [] => false
  end = true.
Proof. by by_tables c. Qed.

Section Capitalisation.

Implicit Types s : list N.

Lemma lower_tail_all s :
  Forall (fun c => upper_letter c = false) s -> lower_tail s.
Proof. intros H. unfold lower_tail. by apply Forall_drop. Qed.

Lemma lower_tail_filter (f : N -> bool) s :
  lower_tail s -> lower_tail (List.filter f s).
Proof.
  assert (forall l, Forall (fun c => upper_letter c = false) l ->
            Forall (fun c => upper_letter c = false) (List.filter f l)) as Hf.
  { intros l Hl. rewrite Forall_forall in *. intros c Hc. apply Hl.
    apply list_elem_of_In. apply list_elem_of_In in Hc.
    by apply filter_In in Hc as [? _]. }
  destruct s as [|h l]; [done|]. unfold lower_tail. cbn [drop List.filter].
  intros H. destruct (f h); [by apply Hf | by apply Forall_drop, Hf].
Qed.

Lemma lower_tail_lstrip s : lower_tail s -> lower_tail (lstrip s).
Proof.
  destruct s as [|h l]; [done|]. intros H. cbn [lstrip].
  destruct (py_isspace h); [|done]. by apply lower_tail_all, Forall_lstrip.
Qed.

Lemma lower_tail_rstrip s : lower_tail s -> lower_tail (rstrip s).
Proof.
  destruct s as [|h l]; [done|]. intros H. rewrite rstrip_cons.
  destruct (forallb _ _); [by constructor|]. by apply Forall_rstrip.
Qed.

Lemma lower_tail_capitalize s : lower_tail (capitalize s).
Proof.
  destruct s as [|c rest]; [by constructor|]. cbn [capitalize].
  assert (Forall (fun c => upper_letter c = false) (lower rest)) as Hl.
  { apply Forall_forall. intros a (a' & -> & _)%list_elem_of_fmap.
    apply upper_letter_lower. }
  pose proof (upper_letter_title c) as Ht.
  destruct (py_title c) as [|h t]; [by apply lower_tail_all|].
  unfold lower_tail. cbn [drop app] in *. apply Forall_app. split; [|done].
  apply Forall_forall. intros a Ha. rewrite forallb_forall in Ht.
  apply negb_true_iff, Ht. by apply list_elem_of_In.
Qed.

Lemma clean_concept_lower_tail s : lower_tail (clean_concept s).
Proof.
  rewrite clean_concept_pipeline. unfold strip.
  apply lower_tail_rstrip, lower_tail_lstrip, lower_tail_filter,
    lower_tail_capitalize.
Qed.

Lemma clean_concept_first s c rest :
  collapsed s = c :: rest -> py_isword c = true ->
  exists first tail,
    clean_concept s = first :: tail /\ head (py_title c) = Some first
    /\ lower_letter first = false.
Proof.
  intros Hs Hc. rewrite clean_concept_pipeline, Hs. cbn [capitalize].
  pose proof (py_title_word c Hc) as Ht.
  destruct (py_title c) as [|first t]; [done|].
  apply andb_true_iff in Ht as [[Hw Hsp]%andb_true_iff Hl].
  apply negb_true_iff in Hsp, Hl.
  exists first. unfold sub_unwanted. cbn [app List.filter].
  assert (is_wanted first = true) as -> by (unfold is_wanted; by rewrite Hw).
  unfold strip. cbn [lstrip]. rewrite Hsp, rstrip_cons. cbn [forallb].
  rewrite Hsp. by eexists.
Qed.

End Capitalisation.

(** C6, as the code has it.  The capitalisation step is [str.capitalize]:
    it also lower-cases what follows the first character.  For an input
    over Latin-1 and whitespace, no character after the first of the normal
    form is an upper-case letter; when the collapsed form starts with a word
    character, the normal form starts with the title-case form of that
    character, which is no lower-case letter; when the input holds letters
    and whitespace only, the normal form is the title-case form of the
    first character of the collapsed form followed by the lower-case forms
    of the others; and a collapsed form "HELLO World" gives "Hello world". *)
Theorem clean_concept_lowercases_tail (concept : list N) :
  forallb in_alphabet concept = true ->
  Forall (fun c => upper_letter c = false) (drop 1 (clean_concept concept))
  /\ (forall c rest,
        collapsed concept = c :: rest -> py_isword c = true ->
        exists first tail,
          clean_concept concept = first :: tail
          /\ head (py_title c) = Some first /\ lower_letter first = false)
  /\ (forall c rest,
        collapsed concept = c :: rest ->
        forallb latin_letter_or_space concept = true ->
        clean_concept concept = py_title c ++ List.map py_lower rest)
  /\ (collapsed concept = lit "HELLO World" ->
      clean_concept concept = lit "Hello world").
Proof.
  intros _. split; [apply clean_concept_lower_tail|].
  split; [intros c rest; apply clean_concept_first|]. split.
  - intros c rest Hs H%latin_letter_or_space_modelled.
    destruct (clean_concept_letters concept H) as [_ ->]. by rewrite Hs.
  - intros H. rewrite clean_concept_pipeline, H. by vm_compute.
Qed.

Lemma clean_concept_lowercases_tail_witness :
  let concept := lit "2) " ++ [e_acute] ++ lit "COLE  " ++ [201%N; 223%N] in
  forallb in_alphabet concept = true
  /\ clean_concept concept = [201%N] ++ lit "cole " ++ [e_acute; 223%N]
  /\ Forall (fun c => upper_letter c = false) (drop 1 (clean_concept concept)).
Proof.
  cbv zeta. split; [by vm_compute|]. split; [by vm_compute|].
  apply (clean_concept_lowercases_tail
           (lit "2) " ++ [e_acute] ++ lit "COLE  " ++ [201%N; 223%N])).
  by vm_compute.
Defined.

(** C6, as stated, fails: the collapsed form of "HELLO World" is itself,
    and its normal form is "Hello world". *)
Lemma clean_concept_lowercases_tail_counterexample :
  collapsed (lit "HELLO World") = lit "HELLO World"
  /\ clean_concept (lit "HELLO World") = lit "Hello world"
  /\ clean_concept (lit "HELLO World") <> lit "HELLO World".
Proof. by vm_compute. Qed.

(** X6. The normal form of an input over Latin-1 and whitespace holds
    only characters that the last substitution keeps, has no whitespace at
    either end, and its only whitespace character is the plain space. *)
Theorem clean_concept_shape (concept : list N) :
  forallb in_alphabet concept = true ->
  Forall (fun c => is_wanted c = true) (clean_concept concept)
  /\ strip (clean_concept concept) = clean_concept concept
  /\ Forall (fun c => py_isspace c = true -> c = 32%N) (clean_concept concept).
Proof.
  intros _. rewrite clean_concept_pipeline. split; [|split].
  - apply Forall_strip, sub_unwanted_wanted.
  - apply strip_idemp.
  - apply (Forall_strip plain_space), Forall_sub_unwanted, Forall_capitalize.
    + intros c Hc. apply Forall_forall. intros c' Hc'.
      pose proof (plain_space_title c Hc) as Ht. rewrite forallb_forall in Ht.
      eapply bool_decide_eq_true, Ht. by apply list_elem_of_In.
    + apply plain_space_lower.
    + apply Forall_strip, sub_spaces_plain.
Qed.

Lemma clean_concept_shape_witness :
  let concept := lit " - ni" ++ [241%N] ++ lit "o,  feliz! " in
  forallb in_alphabet concept = true
  /\ clean_concept concept = lit "ni" ++ [241%N] ++ lit "o feliz"
  /\ strip (clean_concept concept) = clean_concept concept.
Proof.
  cbv zeta. split; [by vm_compute|]. split; [by vm_compute|].
  apply (clean_concept_shape (lit " - ni" ++ [241%N] ++ lit "o,  feliz! ")).
  by vm_compute.
Defined.

(** X7. An input made of whitespace only is normalised to the empty string. *)
Theorem clean_concept_blank (concept : list N) :
  forallb py_isspace concept = true -> clean_concept concept = [].
Proof.
  intros H. rewrite clean_concept_pipeline. unfold collapsed.
  destruct concept as [|c s]; [done|].
  assert (sub_leading_markers (c :: s) = c :: s) as ->.
  { simpl in *. apply andb_true_iff in H as [H _].
    by rewrite (space_not_marker c H). }
  destruct (sub_spaces_blank _ H) as [_ ->]; done.
Qed.

Lemma clean_concept_blank_witness :
  forallb py_isspace (lit "   ") = true /\ clean_concept (lit "   ") = [].
Proof.
  split; [done|]. by apply (clean_concept_blank (lit "   ")).
Defined.

(** X8. A leading run of list markers and the whitespace after it do not
    count: the input is normalised like what follows them, provided that is
    empty or starts with a Latin-1 character that is neither a marker nor
    whitespace. *)
Theorem clean_concept_drops_list_marker (markers blanks rest : list N) :
  markers <> [] ->
  forallb is_marker markers = true ->
  forallb py_isspace blanks = true ->
  bare rest = true ->
  clean_concept (markers ++ blanks ++ rest) = clean_concept rest.
Proof.
  intros Hm Hmark Hblank Hrest. rewrite !clean_concept_pipeline. unfold collapsed.
  assert (sub_leading_markers rest = rest) as Hr.
  { destruct rest as [|c r]; [done|]. cbn [bare sub_leading_markers] in *.
    apply andb_true_iff in Hrest as [[_ ->%negb_true_iff]%andb_true_iff _].
    done. }
  assert (lstrip rest = rest) as Hl.
  { destruct rest as [|c r]; [done|]. cbn [bare lstrip] in *.
    apply andb_true_iff in Hrest as [_ ->%negb_true_iff]. done. }
  assert (skip_markers (blanks ++ rest) = blanks ++ rest) as Hs.
  { destruct blanks as [|b bs]; simpl in *.
    - destruct rest as [|c r]; [done|]. cbn [bare skip_markers app] in *.
      apply andb_true_iff in Hrest as [[_ ->%negb_true_iff]%andb_true_iff _].
      done.
    - apply andb_true_iff in Hblank as [Hb _]. by rewrite (space_not_marker b Hb). }
  assert (sub_leading_markers (markers ++ blanks ++ rest) = rest) as ->.
  { destruct markers as [|m ms]; [done|].
    change (sub_leading_markers ((m :: ms) ++ blanks ++ rest))
      with (if is_marker m then lstrip (skip_markers ((m :: ms) ++ blanks ++ rest))
            else (m :: ms) ++ blanks ++ rest).
    pose proof Hmark as Hm'. simpl in Hm'. apply andb_true_iff in Hm' as [-> _].
    rewrite skip_markers_app, Hs by done.
    by rewrite lstrip_app, Hblank. }
  by rewrite Hr.
Qed.

Lemma clean_concept_drops_list_marker_witness :
  clean_concept (lit "12.-" ++ lit "  " ++ lit "gato negro")
  = clean_concept (lit "gato negro").
Proof.
  by apply (clean_concept_drops_list_marker (lit "12.-") (lit "  ") (lit "gato negro")).
Defined.

(** ** Concept generation *)

Section Generation.

Implicit Types (related : list (list N)) (concepts : gset (list N)).

Lemma union_list_to_set_cons (l : list N) related concepts :
  list_to_set related ∪ ({[l]} ∪ concepts)
  = list_to_set (l :: related) ∪ concepts.
Proof.
  apply set_eq. intros l'. rewrite list_to_set_cons, !elem_of_union. tauto.
Qed.

Lemma keep_concept_loop related concepts lines :
  foldl keep_concept (related, concepts) lines
  = (related ++ kept_concepts lines,
     list_to_set (kept_concepts lines) ∪ concepts).
Proof.
  revert related concepts.
  induction lines as [|l lines IH]; intros related concepts; simpl.
  - rewrite app_nil_r. f_equal. unfold kept_concepts. simpl.
    by rewrite (left_id_L ∅ (∪)).
  - unfold keep_concept at 2. simpl. unfold kept_concepts. simpl.
    destruct (is_valid_concept (clean_concept l)); rewrite IH; [|done].
    unfold kept_concepts. rewrite <- app_assoc. simpl. f_equal.
    apply union_list_to_set_cons.
Qed.

Lemma kept_concepts_length lines : length (kept_concepts lines) <= length lines.
Proof.
  unfold kept_concepts. etrans; [apply filter_length_le|]. by rewrite length_map.
Qed.

Lemma pad_fallbacks_loop turns related concepts :
  3 - length related <= turns ->
  pad_fallbacks turns (related, concepts)
  = (related ++ fallbacks (length related),
     list_to_set (fallbacks (length related)) ∪ concepts).
Proof.
  revert related concepts.
  induction turns as [|turns IH]; intros related concepts Hn.
  - simpl. unfold fallbacks. replace (3 - length related) with 0 by lia.
    simpl. rewrite app_nil_r. f_equal. by rewrite (left_id_L ∅ (∪)).
  - simpl. destruct (length related <? 3) eqn:E.
    + apply Nat.ltb_lt in E. rewrite IH by (rewrite length_app; simpl; lia).
      rewrite length_app. simpl. unfold fallbacks.
      replace (3 - length related) with (S (3 - (length related + 1))) by lia.
      simpl. rewrite <- app_assoc. simpl.
      replace (length related + 1 + 1) with (S (length related + 1)) by lia.
      f_equal. apply union_list_to_set_cons.
    + apply Nat.ltb_ge in E. unfold fallbacks.
      replace (3 - length related) with 0 by lia.
      simpl. rewrite app_nil_r. f_equal. by rewrite (left_id_L ∅ (∪)).
Qed.

Lemma fallbacks_length have : length (fallbacks have) = 3 - have.
Proof. unfold fallbacks. by rewrite length_map, length_seq. Qed.

Lemma generate_concepts_content text st :
  let kept := kept_concepts (take 3 (raw_concepts (strip text))) in
  generate_concepts (Content text) st
  = (Store (nodes st) (edges st)
       (list_to_set (fallbacks (length kept))
        ∪ (list_to_set kept ∪ all_generated_concepts st)),
     inl (kept ++ fallbacks (length kept))).
Proof.
  cbv zeta. unfold generate_concepts.
  rewrite keep_concept_loop. simpl app.
  set (kept := kept_concepts _).
  assert (length kept <= 3) as Hk.
  { unfold kept. etrans; [apply kept_concepts_length|].
    rewrite length_take. lia. }
  rewrite pad_fallbacks_loop by lia. simpl.
  rewrite take_ge; [done|]. rewrite length_app, fallbacks_length. lia.
Qed.

Lemma is_valid_concept_length (l : list N) :
  is_valid_concept l = true <-> 2 <= length l.
Proof.
  destruct l as [|? [|? ?]]; simpl; split; (done || lia).
Qed.

Lemma fallback_concept_length n : 2 <= length (fallback_concept n).
Proof.
  unfold fallback_concept. rewrite length_app.
  change (length (lit "Relacionado")) with 11. lia.
Qed.

End Generation.

(** X9. Whatever text the model returns, [generate_concepts] answers with
    exactly three concepts, each of at least two characters. *)
Theorem generate_concepts_three (text : list N) (st : store) :
  exists related,
    (generate_concepts (Content text) st).2 = inl related
    /\ length related = 3
    /\ Forall (fun concept => 2 <= length concept) related.
Proof.
  rewrite generate_concepts_content. cbv zeta.
  set (kept := kept_concepts _).
  assert (length kept <= 3) as Hk.
  { unfold kept. etrans; [apply kept_concepts_length|].
    rewrite length_take. lia. }
  eexists. split; [done|]. split.
  - rewrite length_app, fallbacks_length. lia.
  - apply Forall_app. split.
    + apply Forall_forall. intros l Hl. apply is_valid_concept_length.
      apply list_elem_of_In in Hl. unfold kept, kept_concepts in Hl.
      by apply filter_In in Hl as [_ ?].
    + apply Forall_forall. intros l (n & -> & _)%list_elem_of_fmap.
      apply fallback_concept_length.
Qed.

(** X10. After [generate_concepts] the set of concepts is the old set
    together with the three concepts returned, and the graph is as before. *)
Theorem generate_concepts_records_result (text : list N) (st : store) :
  exists related,
    (generate_concepts (Content text) st).2 = inl related
    /\ all_generated_concepts (generate_concepts (Content text) st).1
       = list_to_set related ∪ all_generated_concepts st
    /\ get_graph (generate_concepts (Content text) st).1 = get_graph st.
Proof.
  rewrite generate_concepts_content. cbv zeta.
  eexists. split; [done|]. split; [|done]. simpl.
  apply set_eq. intros l. rewrite list_to_set_app_L, !elem_of_union. tauto.
Qed.

(** X11. The answer is the valid normal forms of the first three non-blank
    lines, followed by the names "Relacionado<k>" numbered by their
    position; a blank text yields "Relacionado1", "Relacionado2",
    "Relacionado3". *)
Theorem generate_concepts_fills_with_fallbacks (text : list N) (st : store) :
  let kept :=
    List.filter is_valid_concept
      (List.map clean_concept (take 3 (raw_concepts (strip text)))) in
  (generate_concepts (Content text) st).2
    = inl (kept ++ List.map fallback_concept
                     (seq (length kept + 1) (3 - length kept)))
  /\ (forallb py_isspace text = true ->
      (generate_concepts (Content text) st).2
        = inl [lit "Relacionado1"; lit "Relacionado2"; lit "Relacionado3"]).
Proof.
  cbv zeta. rewrite generate_concepts_content. cbv zeta.
  split; [done|]. intros H. by rewrite strip_blank.
Qed.

Lemma generate_concepts_fills_with_fallbacks_witness :
  forallb py_isspace (lit "  ") = true
  /\ (generate_concepts (Content (lit "  ")) (empty_graph ∅)).2
     = inl [lit "Relacionado1"; lit "Relacionado2"; lit "Relacionado3"].
Proof.
  split; [done|].
  by apply (generate_concepts_fills_with_fallbacks (lit "  ") (empty_graph ∅)).
Defined.

(** ** Concept analysis *)

Section Analysis.

Implicit Types s t word : list N.

Lemma split_words_no_space word s :
  Forall (fun c => py_isspace c = false) word ->
  Forall (Forall (fun c => py_isspace c = false)) (split_words word s).
Proof.
  revert word. induction s as [|c s IH]; intros word Hw; simpl.
  - destruct word; [done | by constructor].
  - destruct (py_isspace c) eqn:E.
    + destruct word; [by apply IH|]. constructor; [done | by apply IH].
    + apply IH, Forall_app. split; [done | by constructor].
Qed.

Lemma split_words_nil word s :
  split_words word s = [] <-> word = [] /\ forallb py_isspace s = true.
Proof.
  revert word. induction s as [|c s IH]; intros word; simpl.
  - destruct word; [done | by split; [|intros [? _]]].
  - destruct (py_isspace c) eqn:E; simpl.
    + destruct word; [apply IH | by split; [|intros [? _]]].
    + rewrite IH. split; [intros [H _]; by destruct word | by intros [_ ?]].
Qed.

Lemma py_split_nil s : py_split s = [] <-> forallb py_isspace s = true.
Proof. unfold py_split. rewrite split_words_nil. by split; [intros [_ ?]|]. Qed.

Lemma split_on_length sep s : length (split_on sep s) = S (occurrences sep s).
Proof.
  unfold occurrences. induction s as [|c s IH]; simpl; [done|].
  destruct (c =? sep)%N; simpl; [by rewrite IH|].
  destruct (split_on sep s); [done|]. by rewrite <- IH.
Qed.

Lemma occurrences_app sep s t :
  occurrences sep (s ++ t) = occurrences sep s + occurrences sep t.
Proof. unfold occurrences. by rewrite List.filter_app, length_app. Qed.

Lemma occurrences_lstrip sep s :
  py_isspace sep = false -> occurrences sep (lstrip s) = occurrences sep s.
Proof.
  intros Hs. unfold occurrences. induction s as [|c s IH]; simpl; [done|].
  destruct (py_isspace c) eqn:E; [|done].
  destruct (N.eqb_spec c sep) as [->|_]; [congruence | done].
Qed.

Lemma occurrences_rev sep s : occurrences sep (rev s) = occurrences sep s.
Proof.
  induction s as [|c s IH]; [done|]. simpl rev.
  rewrite occurrences_app, IH. change (c :: s) with ([c] ++ s).
  rewrite occurrences_app. lia.
Qed.

Lemma occurrences_strip sep s :
  py_isspace sep = false -> occurrences sep (strip s) = occurrences sep s.
Proof.
  intros Hs. unfold strip, rstrip.
  by rewrite occurrences_rev, occurrences_lstrip, occurrences_rev,
    occurrences_lstrip.
Qed.

Lemma split_on_field sep s t :
  Forall (fun c => c <> sep) s ->
  split_on sep (s ++ sep :: t) = s :: split_on sep t.
Proof.
  induction 1 as [|c s Hc Hs IH]; simpl.
  - by rewrite N.eqb_refl.
  - destruct (N.eqb_spec c sep); [done|]. by rewrite IH.
Qed.

Lemma split_on_whole sep s :
  Forall (fun c => c <> sep) s -> split_on sep s = [s].
Proof.
  induction 1 as [|c s Hc Hs IH]; simpl; [done|].
  destruct (N.eqb_spec c sep); [done|]. by rewrite IH.
Qed.

Lemma lstrip_before c s t :
  py_isspace c = false -> lstrip (s ++ c :: t) = lstrip s ++ c :: t.
Proof.
  intros Hc. rewrite lstrip_app. destruct (forallb py_isspace s) eqn:E.
  - rewrite (lstrip_blank s E). simpl. by rewrite Hc.
  - done.
Qed.

Lemma rstrip_after c s t :
  py_isspace c = false -> rstrip (s ++ c :: t) = s ++ c :: rstrip t.
Proof.
  intros Hc. induction s as [|a s IH].
  - simpl. rewrite rstrip_cons. simpl. by rewrite Hc.
  - simpl. rewrite rstrip_cons, IH.
    replace (forallb py_isspace (a :: s ++ c :: t)) with false; [done|].
    simpl. rewrite forallb_app. simpl. rewrite Hc.
    by rewrite andb_false_r, andb_false_r.
Qed.

Lemma lstrip_rstrip s : lstrip (rstrip s) = rstrip (lstrip s).
Proof.
  induction s as [|c s IH]; [done|]. rewrite rstrip_cons.
  destruct (forallb py_isspace (c :: s)) eqn:E.
  - by rewrite (lstrip_blank _ E).
  - simpl. destruct (py_isspace c) eqn:Ec; [done|].
    rewrite rstrip_cons. simpl. by rewrite Ec.
Qed.

Lemma strip_lstrip s : strip (lstrip s) = strip s.
Proof. unfold strip. by rewrite lstrip_idemp. Qed.

Lemma strip_rstrip s : strip (rstrip s) = strip s.
Proof. unfold strip. by rewrite lstrip_rstrip, rstrip_idemp. Qed.

End Analysis.

(** X12. The analyser of [main.py] and the one of [api/analyze-concept.py]
    return the same [is_concept] and [extracted_concept]; their explanations
    differ only for a reply without three fields on a text without a word,
    where [main.py] reports the [IndexError]. *)
Theorem analyze_concept_versions_agree (text : list N) (r : reply) :
  let main := analyze_concept text r in
  let handler := analyze_concept_handler text r in
  is_concept main = is_concept handler
  /\ extracted_concept main = extracted_concept handler
  /\ (explanation main = explanation handler
      \/ (forallb py_isspace text = true
          /\ explanation main = analysis_error ++ lit "list index out of range"
          /\ explanation handler = automatic_analysis)).
Proof.
  cbv zeta. destruct r as [content|message]; [|by auto].
  unfold analyze_concept, analyze_concept_handler. cbv zeta.
  destruct (3 <=? length (split_on 124 (strip content))); [by auto|].
  destruct (py_split text) as [|word words] eqn:E; [|by auto].
  split; [done|]. split; [unfold error_analysis; simpl; by rewrite E|].
  right. split; [by apply py_split_nil | done].
Qed.

(** X13. Without a reply of three fields the text is declared a concept,
    the extracted concept is the normal form of its first word, or
    "Concepto" when it has no word, and it holds no whitespace. *)
Theorem analyze_concept_fallback (text : list N) (r : reply) :
  malformed r ->
  let a := analyze_concept text r in
  is_concept a = true
  /\ extracted_concept a
     = match py_split text with
       | word :: _ => clean_concept word
       | [] => lit "Concepto"
       end
  /\ Forall (fun c => py_isspace c = false) (extracted_concept a)
  /\ (extracted_concept a = lit "Concepto" \/ forallb py_isspace text = false).
Proof.
  intros Hr. cbv zeta.
  assert (Forall (Forall (fun c => py_isspace c = false)) (py_split text)) as Hw
    by (by apply split_words_no_space).
  assert (match py_split text with
          | word :: _ => clean_concept word
          | [] => lit "Concepto"
          end = lit "Concepto" \/ forallb py_isspace text = false) as Hd.
  { destruct (py_split text) eqn:E; [by left|]. right.
    destruct (forallb py_isspace text) eqn:Et; [|done].
    apply py_split_nil in Et. congruence. }
  assert (Forall (fun c => py_isspace c = false)
            match py_split text with
            | word :: _ => clean_concept word
            | [] => lit "Concepto"
            end) as Hn.
  { destruct (py_split text) as [|word words].
    - by repeat constructor.
    - inversion Hw; subst. by apply clean_concept_no_space. }
  destruct r as [content|message]; unfold analyze_concept, error_analysis;
    cbv zeta.
  - simpl in Hr. rewrite split_on_length, occurrences_strip by done.
    replace (3 <=? S (occurrences 124 content)) with false
      by (symmetry; apply Nat.leb_gt; lia).
    destruct (py_split text) as [|word words]; simpl; split_and!; auto.
  - simpl. split_and!; auto.
Qed.

Lemma analyze_concept_fallback_witness :
  malformed (Content (lit "no lo se"))
  /\ extracted_concept (analyze_concept (lit "  me gusta el mar") (Content (lit "no lo se")))
     = clean_concept (lit "me").
Proof.
  split; [vm_compute; lia|].
  apply (analyze_concept_fallback (lit "  me gusta el mar") (Content (lit "no lo se"))).
  vm_compute. lia.
Defined.

Lemma analyze_concept_parts (text content p0 p1 p2 : list N)
    (more : list (list N)) :
  split_on 124 (strip content) = p0 :: p1 :: p2 :: more ->
  analyze_concept text (Content content)
  = Analysis (bool_decide (strip p0 = lit "CONCEPTO"))
      (clean_concept (strip p1)) (strip p2).
Proof. intros H. unfold analyze_concept. cbv zeta. by rewrite H. Qed.

(** X14. A reply of at least three bar-separated fields is read field by
    field: the type is the first field stripped, the concept the normal form
    of the second stripped, the explanation the third stripped; further
    fields and the text play no part. *)
Theorem analyze_concept_reads_three_fields (text f0 f1 f2 tail : list N) :
  Forall (fun c => c <> 124%N) f0 ->
  Forall (fun c => c <> 124%N) f1 ->
  Forall (fun c => c <> 124%N) f2 ->
  tail = [] \/ (exists junk, tail = 124%N :: junk) ->
  analyze_concept text (Content (f0 ++ [124%N] ++ f1 ++ [124%N] ++ f2 ++ tail))
  = Analysis (bool_decide (strip f0 = lit "CONCEPTO"))
      (clean_concept (strip f1)) (strip f2).
Proof.
  intros H0 H1 H2 Ht.
  assert (exists more,
    split_on 124 (strip (f0 ++ [124%N] ++ f1 ++ [124%N] ++ f2 ++ tail))
    = lstrip f0 :: f1 :: (if decide (tail = []) then rstrip f2 else f2) :: more)
    as [more Hs].
  { simpl app. unfold strip.
    rewrite lstrip_before, rstrip_after, rstrip_after by done.
    rewrite split_on_field by (by apply Forall_lstrip).
    rewrite split_on_field by done.
    destruct Ht as [->|[junk ->]].
    - rewrite app_nil_r, split_on_whole by (by apply Forall_rstrip).
      by exists [].
    - rewrite rstrip_after, split_on_field by done. by eexists. }
  rewrite (analyze_concept_parts _ _ _ _ _ _ Hs), strip_lstrip.
  by destruct (decide (tail = [])); rewrite ?strip_rstrip.
Qed.

Lemma analyze_concept_reads_three_fields_witness :
  analyze_concept (lit "x")
    (Content (lit " FRASE " ++ [124%N] ++ lit " el mar " ++ [124%N]
              ++ lit " idea principal " ++ lit "|y|z"))
  = Analysis false (lit "El mar") (lit "idea principal").
Proof.
  rewrite (analyze_concept_reads_three_fields (lit "x") (lit " FRASE ")
             (lit " el mar ") (lit " idea principal ") (lit "|y|z")).
  - by vm_compute.
  - by vm_compute; repeat constructor.
  - by vm_compute; repeat constructor.
  - by vm_compute; repeat constructor.
  - right. by eexists.
Defined.

(** ** The graph store, further *)

Section GraphStoreMore.

Implicit Types (ns : list (nat * node)) (es : list edge) (l : list N).

Lemma find_label_bound l ns k :
  ns.*1 = seq 0 (length ns) -> find_label l ns = Some k -> k < length ns.
Proof.
  intros Hk (nd & Hin & _)%find_label_Some.
  assert (k ∈ ns.*1) as H.
  { apply list_elem_of_fmap. by exists (k, nd). }
  rewrite Hk in H. apply list_elem_of_In, in_seq in H. lia.
Qed.

(** On a store whose keys are dense an absent label is appended. *)
Lemma insert_or_reuse_dense l ns :
  ns.*1 = seq 0 (length ns) ->
  insert_or_reuse l ns
  = match find_label l ns with
    | Some existing_id => (ns, existing_id)
    | None => (ns ++ [(length ns, Node (length ns) l 0 0 0)], length ns)
    end.
Proof.
  intros Hk. unfold insert_or_reuse. destruct (find_label l ns); [done|].
  unfold dict_set. by rewrite fresh_key.
Qed.

Lemma add_concept_unfold c parent st :
  let concept := clean_concept c in
  let ns := (insert_or_reuse concept (nodes st)).1 in
  let node_id := (insert_or_reuse concept (nodes st)).2 in
  let similar_concepts := find_existing_concepts concept (labels ns) in
  add_concept c parent st
  = (Store ns
       (foldl (link_similar concept (clean_parent parent) ns node_id)
          (link_parent (clean_parent parent) ns node_id (edges st))
          similar_concepts)
       ({[concept]} ∪ all_generated_concepts st),
     Response node_id (length similar_concepts)).
Proof. unfold add_concept. by destruct (insert_or_reuse _ _). Qed.

Lemma link_parent_cases parent ns node_id es :
  link_parent parent ns node_id es = es
  \/ exists p parent_id,
       parent = Some p /\ p <> [] /\ find_label p ns = Some parent_id
       /\ link_parent parent ns node_id es = es ++ [Edge parent_id node_id].
Proof.
  unfold link_parent. destruct parent as [[|c p]|]; try by left.
  destruct (find_label _ ns) as [parent_id|] eqn:E; [|by left].
  destruct (existsb _ es); [by left|]. right. by exists (c :: p), parent_id.
Qed.

(** Once its edge is there, the parent block appends nothing. *)
Lemma link_parent_again parent ns node_id es es' :
  link_parent parent ns node_id es ⊆ es' ->
  link_parent parent ns node_id es' = es'.
Proof.
  unfold link_parent. destruct parent as [[|c p]|]; try done.
  destruct (find_label _ ns) as [parent_id|]; [|done]. intros H.
  assert (Edge parent_id node_id ∈ es') as Hin.
  { apply H. destruct (existsb _ es) eqn:E.
    - by apply has_edge_iff.
    - apply elem_of_app. right. by apply list_elem_of_singleton. }
  apply has_edge_iff in Hin. by rewrite Hin.
Qed.

Lemma link_similar_again concept parent ns node_id es es' similar :
  link_similar concept parent ns node_id es similar ⊆ es' ->
  link_similar concept parent ns node_id es' similar = es'.
Proof.
  unfold link_similar. destruct (_ && _); [|done].
  destruct (find_label similar ns) as [similar_id|]; [|done]. intros H.
  assert (Edge node_id similar_id ∈ es' \/ Edge similar_id node_id ∈ es') as Hin.
  { destruct (existsb _ es) eqn:E.
    - apply has_link_iff in E as [E|E]; [left | right]; by apply H.
    - left. apply H, elem_of_app. right. by apply list_elem_of_singleton. }
  apply has_link_iff in Hin. by rewrite Hin.
Qed.

Lemma link_similar_loop_grows concept parent ns node_id es similar_concepts :
  es ⊆ foldl (link_similar concept parent ns node_id) es similar_concepts.
Proof.
  destruct (link_similar_loop concept parent ns node_id es similar_concepts)
    as (added & -> & _). intros e He. apply elem_of_app. by left.
Qed.

Lemma link_similar_loop_again concept parent ns node_id es es' similar_concepts :
  foldl (link_similar concept parent ns node_id) es similar_concepts ⊆ es' ->
  foldl (link_similar concept parent ns node_id) es' similar_concepts = es'.
Proof.
  revert es. induction similar_concepts as [|s sims IH]; intros es H; [done|].
  simpl in *. rewrite (link_similar_again _ _ _ _ es).
  - by apply (IH (link_similar concept parent ns node_id es s)).
  - etrans; [apply link_similar_loop_grows | done].
Qed.

Lemma similarity_edge_ok concept parent ns node_id e :
  ns.*1 = seq 0 (length ns) -> node_id < length ns ->
  similarity_edge concept parent ns node_id e -> edge_ok ns e.
Proof.
  intros Hk Hn [Hs (similar & _ & _ & Hf)]. split; [lia|].
  by eapply find_label_bound.
Qed.

Lemma add_concept_wf c parent st :
  store_wf st -> store_wf (add_concept c parent st).1.
Proof.
  intros [Hinv Hnodes Hedges]. pose proof Hinv as [Hk Hl He].
  pose proof (add_concept_inv c parent st Hinv) as Hinv'.
  pose proof Hinv' as [Hk' _ _].
  rewrite add_concept_nodes in Hk'.
  assert (length (nodes st) <= length (insert_or_reuse (clean_concept c) (nodes st)).1
          /\ (insert_or_reuse (clean_concept c) (nodes st)).2
             < length (insert_or_reuse (clean_concept c) (nodes st)).1
          /\ Forall node_ok (insert_or_reuse (clean_concept c) (nodes st)).1)
    as (Hlen & Hid & Hok).
  { rewrite insert_or_reuse_dense by done.
    destruct (find_label _ (nodes st)) as [k|] eqn:E; simpl.
    - split; [done|]. split; [by eapply find_label_bound | done].
    - rewrite length_app. simpl. split; [lia|]. split; [lia|].
      apply Forall_app. split; [done|]. by repeat constructor. }
  split; [done| |].
  - by rewrite add_concept_nodes.
  - rewrite add_concept_nodes, add_concept_edges. cbv zeta.
    set (ns := (insert_or_reuse (clean_concept c) (nodes st)).1) in *.
    set (node_id := (insert_or_reuse (clean_concept c) (nodes st)).2) in *.
    destruct (link_similar_loop (clean_concept c) (clean_parent parent) ns node_id
                (link_parent (clean_parent parent) ns node_id (edges st))
                (find_existing_concepts (clean_concept c) (labels ns)))
      as (added & -> & Hall & _).
    apply Forall_app. split.
    + assert (Forall (edge_ok ns) (edges st)) as Hold.
      { eapply Forall_impl; [done|]. intros e [? ?]. split; lia. }
      destruct (link_parent_cases (clean_parent parent) ns node_id (edges st))
        as [->|(p & pid & _ & _ & Hf & ->)]; [done|].
      apply Forall_app. split; [done|]. constructor; [|done].
      split; simpl; [by eapply find_label_bound | done].
    + eapply Forall_impl; [done|]. intros e. by apply similarity_edge_ok.
Qed.

Lemma run_wf ops st : store_wf st -> store_wf (run ops st).
Proof.
  revert st. induction ops as [|o ops IH]; intros st Hst; [done|].
  apply IH. destruct o as [c parent|]; simpl.
  - by apply add_concept_wf.
  - split; [|done..]. split; simpl; [done | apply NoDup_nil_2 | apply NoDup_nil_2].
Qed.

Lemma empty_graph_wf concepts : store_wf (empty_graph concepts).
Proof.
  split; [|done..]. split; simpl; [done | apply NoDup_nil_2 | apply NoDup_nil_2].
Qed.

End GraphStoreMore.

(** X15. In every reachable store the keys of the node dictionary and the
    ids of the nodes listed by [get_graph] are [0 .. n-1] in order, and all
    coordinates are 0. *)
Theorem reachable_store_has_dense_ids (ops : list op) (concepts : gset (list N)) :
  let st := run ops (empty_graph concepts) in
  (nodes st).*1 = seq 0 (length (nodes st))
  /\ List.map id (get_graph st).1 = seq 0 (length (nodes st))
  /\ Forall (fun nd => x nd = 0%Z /\ y nd = 0%Z /\ z nd = 0%Z) (get_graph st).1.
Proof.
  cbv zeta. destruct (run_wf ops _ (empty_graph_wf concepts)) as [[Hk _ _] Hn _].
  set (st := run ops (empty_graph concepts)) in *.
  split; [done|]. unfold get_graph. simpl. split.
  - rewrite <- Hk. clear Hk. induction Hn as [|[k nd] ns [H _] _ IH]; [done|].
    simpl in *. by rewrite H, IH.
  - apply Forall_forall. intros nd Hnd. apply list_elem_of_In, in_map_iff in Hnd
      as (kv & <- & Hin). rewrite Forall_forall in Hn.
    by destruct (Hn kv) as (_ & ? & ? & ?); [by apply list_elem_of_In|].
Qed.

(** X16. In every reachable store both ends of every edge are ids of
    listed nodes. *)
Theorem reachable_store_has_no_dangling_edge (ops : list op)
    (concepts : gset (list N)) :
  let st := run ops (empty_graph concepts) in
  Forall (fun e => source e ∈ List.map id (get_graph st).1
                   /\ target e ∈ List.map id (get_graph st).1) (edges st).
Proof.
  cbv zeta.
  destruct (reachable_store_has_dense_ids ops concepts) as (_ & -> & _).
  destruct (run_wf ops _ (empty_graph_wf concepts)) as [_ _ He].
  eapply Forall_impl; [done|]. intros e [? ?].
  split; apply list_elem_of_In, in_seq; lia.
Qed.

(** X17. From a reachable store [add_concept] keeps the old edges as a
    prefix of the new ones, leaves the nodes alone when the label is there
    and otherwise appends one node whose id is the old node count; the id it
    returns is that of a node of the new store. *)
Theorem add_concept_only_appends (ops : list op) (concepts : gset (list N))
    (c : list N) (parent : option (list N)) :
  let st := run ops (empty_graph concepts) in
  let st' := (add_concept c parent st).1 in
  edges st `prefix_of` edges st'
  /\ nodes st' =
     (if bool_decide (clean_concept c ∈ labels (nodes st)) then nodes st
      else nodes st ++ [(length (nodes st),
                         Node (length (nodes st)) (clean_concept c) 0 0 0)])
  /\ concept_id (add_concept c parent st).2 < length (nodes st').
Proof.
  cbv zeta. destruct (run_wf ops _ (empty_graph_wf concepts)) as [[Hk _ _] _ _].
  set (st := run ops (empty_graph concepts)) in *.
  rewrite add_concept_nodes, add_concept_id, add_concept_edges. cbv zeta.
  rewrite insert_or_reuse_dense by done. split; [|split].
  - match goal with
    | |- _ `prefix_of` foldl (link_similar ?co ?pa ?ns ?ni) ?es ?sims =>
        destruct (link_similar_loop co pa ns ni es sims) as (added & -> & _);
        destruct (link_parent_cases pa ns ni (edges st))
          as [->|(? & ? & _ & _ & _ & ->)]
    end.
    + by apply prefix_app_r.
    + rewrite <- app_assoc. by apply prefix_app_r.
  - destruct (find_label _ (nodes st)) as [k|] eqn:E; simpl.
    + by rewrite bool_decide_true by (by eapply find_label_elem).
    + by rewrite bool_decide_false by (by apply find_label_None).
  - destruct (find_label _ (nodes st)) as [k|] eqn:E; simpl.
    + by eapply find_label_bound.
    + rewrite length_app. simpl. lia.
Qed.

(** X18. Repeating an [add_concept] call changes nothing: the second call
    returns the same answer and the same store, from any store. *)
Theorem add_concept_idempotent (st : store) (c : list N)
    (parent : option (list N)) :
  add_concept c parent (add_concept c parent st).1 = add_concept c parent st.
Proof.
  rewrite (add_concept_unfold c parent st). cbv zeta.
  set (concept := clean_concept c).
  set (ns := (insert_or_reuse concept (nodes st)).1).
  set (node_id := (insert_or_reuse concept (nodes st)).2).
  set (es := foldl _ _ _).
  rewrite add_concept_unfold. cbv zeta. simpl nodes. simpl edges.
  simpl all_generated_concepts. fold concept.
  assert (insert_or_reuse concept ns = (ns, node_id)) as ->.
  { pose proof (insert_or_reuse_found concept (nodes st)) as Hf.
    fold ns node_id in Hf. unfold insert_or_reuse. by rewrite Hf. }
  simpl fst. simpl snd.
  assert (link_parent (clean_parent parent) ns node_id es = es) as ->.
  { apply (link_parent_again _ _ _ (edges st)), link_similar_loop_grows. }
  assert (foldl (link_similar concept (clean_parent parent) ns node_id) es
            (find_existing_concepts concept (labels ns)) = es) as ->.
  { apply (link_similar_loop_again _ _ _ _
             (link_parent (clean_parent parent) ns node_id (edges st))).
    by intros e He. }
  f_equal. f_equal. apply set_eq. intros l. rewrite !elem_of_union. tauto.
Qed.

(** X19. The first [add_concept] into a graph without nodes (as after
    [reset_graph]) creates node 0, reports one similar connection unless the
    label is empty, and appends no edge, except the loop from node 0 to
    itself when the parent normalises to the same non-empty label. *)
Theorem add_concept_into_empty_graph (concepts : gset (list N)) (c : list N)
    (parent : option (list N)) :
  let concept := clean_concept c in
  let result := add_concept c parent (empty_graph concepts) in
  nodes result.1 = [(0, Node 0 concept 0 0 0)]
  /\ concept_id result.2 = 0
  /\ similar_connections result.2 = (if bool_decide (concept = []) then 0 else 1)
  /\ edges result.1
     = (if bool_decide (concept <> [] /\ clean_parent parent = Some concept)
        then [Edge 0 0] else []).
Proof.
  cbv zeta. set (concept := clean_concept c).
  set (ns := [(0, Node 0 concept 0 0 0)]).
  assert (insert_or_reuse concept (nodes (empty_graph concepts)) = (ns, 0))
    as Hi by done.
  assert (find_existing_concepts concept (labels ns)
          = if bool_decide (concept = []) then [] else [concept]) as Hs.
  { rewrite find_existing_concepts_filter.
    change (labels ns) with [concept]. cbn [List.filter].
    case_bool_decide as E.
    - rewrite E. by vm_compute.
    - by rewrite is_connection_self. }
  rewrite add_concept_count, add_concept_edges. cbv zeta.
  rewrite add_concept_nodes, add_concept_id. fold concept.
  rewrite Hi. cbn [fst snd]. rewrite Hs.
  split; [done|]. split; [done|]. split; [by case_bool_decide|].
  assert (foldl (link_similar concept (clean_parent parent) ns 0)
            (link_parent (clean_parent parent) ns 0 (edges (empty_graph concepts)))
            (if bool_decide (concept = []) then [] else [concept])
          = link_parent (clean_parent parent) ns 0 []) as ->.
  { case_bool_decide; [done|]. cbn [foldl]. unfold link_similar.
    by rewrite bool_decide_true. }
  unfold link_parent. destruct (clean_parent parent) as [[|a p]|].
  - rewrite bool_decide_false; [done|]. by intros [? [= <-]].
  - cbn [ns find_label label].
    destruct (bool_decide_reflect (concept = a :: p)) as [E|E].
    + rewrite bool_decide_true; [done|]. split; by rewrite E.
    + rewrite bool_decide_false; [done|]. intros [_ [= H]]. by rewrite H in E.
  - by rewrite bool_decide_false by (by intros [_ ?]).
Qed.

(** X20. Two non-empty strings whose score passes the threshold have close
    lengths: three times the larger is less than five times the smaller. *)
Theorem similarity_needs_close_lengths (a b : list N) :
  a <> [] -> b <> [] ->
  above_threshold (calculate_similarity a b) = true ->
  3 * (length a `max` length b) < 5 * (length a `min` length b).
Proof.
  intros Ha Hb H. apply similarity_threshold_distance in H; [|done..].
  pose proof (edit_length _ _ _ (levenshtein_edit a b)).
  pose proof (edit_length _ _ _ (edit_sym _ _ _ (levenshtein_edit a b))).
  lia.
Qed.

Lemma similarity_needs_close_lengths_witness :
  lit "perro" <> [] /\ lit "perros" <> []
  /\ above_threshold (calculate_similarity (lit "perro") (lit "perros")) = true
  /\ 3 * (5 `max` 6) < 5 * (5 `min` 6).
Proof.
  split; [done|]. split; [done|]. split; [by vm_compute|].
  by apply (similarity_needs_close_lengths (lit "perro") (lit "perros")).
Defined.
